(** * Wizard card game engine: a shallow embedding of [WizardGame]

    The source is [src/server/game/game.py].  The Python object is modelled
    as a record [Game]; every method becomes a computation in a small
    state-and-exception monad [M], so that the state a caller observes after
    a raised exception is part of the result.  Python dictionaries keyed by
    player name are [gmap string _]; Python integers are [Z]. *)

From Stdlib Require Import ZArith DecimalString.
From stdpp Require Import base option list gmap strings.

Local Open Scope Z_scope.

(** ** Cards *)

(** [SUITS = ['BLUE', 'GREEN', 'RED', 'YELLOW', 'WHITE']] *)
Inductive Suit := BLUE | GREEN | RED | YELLOW | WHITE.

(** [VALUES = list(range(1, 14)) + ['WIZARD', 'JESTER']]: an integer or one
    of two strings. *)
Inductive Value := Rank (n : Z) | WIZARD | JESTER.

#[global] Instance Suit_eq_dec : EqDecision Suit.
Proof. solve_decision. Defined.

#[global] Instance Value_eq_dec : EqDecision Value.
Proof. solve_decision. Defined.

(** A card is the tuple [(suit, value)]. *)
Abbreviation Card := (Suit * Value)%type.

Definition SUITS : list Suit := [BLUE; GREEN; RED; YELLOW; WHITE].

Definition VALUES : list Value :=
  map (λ n, Rank (Z.of_nat n)) (seq 1 13) ++ [WIZARD; JESTER].

(** Python slices [l[:-k]]. *)
Definition drop_last {A} (k : nat) (l : list A) : list A :=
  take (length l - k)%nat l.

(** ** Exceptions *)

Inductive Error :=
  | AssertionError (msg : string)
  | KeyError (key : string)
  | IndexError
  | TypeError
  | ValueError
  | ZeroDivisionError.

#[global] Instance Error_eq_dec : EqDecision Error.
Proof. solve_decision. Defined.

Inductive Outcome (A : Type) :=
  | Ok (a : A)
  | Raise (e : Error).
Arguments Ok {A} a.
Arguments Raise {A} e.

(** ** The game object *)

Record Game := mkGame {
  players : list string;
  current_round : Z;
  trump_card : option Card;
  current_player : option string;
  scores : gmap string Z;
  predictions : gmap string Z;
  hands : gmap string (list Card);
  tricks_won : gmap string Z;
  current_trick : list Card;
  deck : list Card
}.

Definition set_current_round (v : Z) (g : Game) : Game :=
  mkGame (players g) v (trump_card g) (current_player g) (scores g)
         (predictions g) (hands g) (tricks_won g) (current_trick g) (deck g).
Definition set_trump_card (v : option Card) (g : Game) : Game :=
  mkGame (players g) (current_round g) v (current_player g) (scores g)
         (predictions g) (hands g) (tricks_won g) (current_trick g) (deck g).
Definition set_current_player (v : option string) (g : Game) : Game :=
  mkGame (players g) (current_round g) (trump_card g) v (scores g)
         (predictions g) (hands g) (tricks_won g) (current_trick g) (deck g).
Definition set_scores (v : gmap string Z) (g : Game) : Game :=
  mkGame (players g) (current_round g) (trump_card g) (current_player g) v
         (predictions g) (hands g) (tricks_won g) (current_trick g) (deck g).
Definition set_predictions (v : gmap string Z) (g : Game) : Game :=
  mkGame (players g) (current_round g) (trump_card g) (current_player g)
         (scores g) v (hands g) (tricks_won g) (current_trick g) (deck g).
Definition set_hands (v : gmap string (list Card)) (g : Game) : Game :=
  mkGame (players g) (current_round g) (trump_card g) (current_player g)
         (scores g) (predictions g) v (tricks_won g) (current_trick g) (deck g).
Definition set_tricks_won (v : gmap string Z) (g : Game) : Game :=
  mkGame (players g) (current_round g) (trump_card g) (current_player g)
         (scores g) (predictions g) (hands g) v (current_trick g) (deck g).
Definition set_current_trick (v : list Card) (g : Game) : Game :=
  mkGame (players g) (current_round g) (trump_card g) (current_player g)
         (scores g) (predictions g) (hands g) (tricks_won g) v (deck g).
Definition set_deck (v : list Card) (g : Game) : Game :=
  mkGame (players g) (current_round g) (trump_card g) (current_player g)
         (scores g) (predictions g) (hands g) (tricks_won g) (current_trick g) v.

(** ** State and exception monad

    A method call maps the object's state to an outcome together with the
    state left behind; a raised exception keeps every mutation made before
    it, as in Python. *)

Definition M (A : Type) : Type := Game → Outcome A * Game.

Definition ret {A} (a : A) : M A := λ g, (Ok a, g).
Definition raise {A} (e : Error) : M A := λ g, (Raise e, g).
Definition bind {A B} (m : M A) (k : A → M B) : M B :=
  λ g, match m g with
       | (Ok a, g') => k a g'
       | (Raise e, g') => (Raise e, g')
       end.
Definition get {A} (f : Game → A) : M A := λ g, (Ok (f g), g).
Definition modify (f : Game → Game) : M unit := λ g, (Ok tt, f g).

Notation "x ←' m ;; k" := (bind m (λ x, k))
  (at level 100, m at next level, right associativity,
   format "x  ←'  m  ;;  '/' k").
Notation "m ;;' k" := (bind m (λ _, k))
  (at level 100, right associativity, format "m  ;;'  '/' k").

(** [assert cond, msg] *)
Definition assert_ (cond : bool) (msg : string) : M unit :=
  if cond then ret tt else raise (AssertionError msg).

(** [d[key]] on a dictionary read from the state. *)
Definition getitem {V} (d : Game → gmap string V) (key : string) : M V :=
  λ g, match d g !! key with
       | Some v => (Ok v, g)
       | None => (Raise (KeyError key), g)
       end.

(** [for x in l: body(x)] *)
Fixpoint for_each {A} (l : list A) (body : A → M unit) : M unit :=
  match l with
  | [] => ret tt
  | x :: l' => body x ;;' for_each l' body
  end.

(** [str(n)] for an integer. *)
Definition str (n : Z) : string := NilZero.string_of_int (Z.to_int n).

(** ** [__init__] and [_create_deck] *)

Definition _create_deck : list Card :=
  flat_map (λ suit, map (λ value, (suit, value)) (drop_last 2 VALUES))
           (drop_last 1 SUITS)
  ++ flat_map (λ _, [(WHITE, WIZARD); (WHITE, JESTER)]) (seq 0 4).

(** [{player: v for player in players}] *)
Definition dict_from_keys {V} (keys : list string) (v : V) : gmap string V :=
  foldl (λ d k, <[k := v]> d) ∅ keys.

(** The attribute assignments of [__init__]. *)
Definition fresh_game (ps : list string) : Game :=
  mkGame ps 0 None None (dict_from_keys ps 0) ∅ (dict_from_keys ps [])
         (dict_from_keys ps 0) [] _create_deck.

Definition __init__ (ps : list string) : Outcome Game :=
  if bool_decide (3 ≤ Z.of_nat (length ps)) && bool_decide (Z.of_nat (length ps) ≤ 6)
  then Ok (fresh_game ps)
  else Raise (AssertionError "Number of players must be between 3 and 6").

(** ** [start_round] and [_deal_cards] *)

(** [deck.pop()]: removes and returns the last element; [None] stands for
    the [IndexError] of an empty list. *)
Definition pop (d : list Card) : option (Card * list Card) :=
  match last d with
  | Some c => Some (c, removelast d)
  | None => None
  end.

Definition deck_pop : M Card :=
  λ g, match pop (deck g) with
       | Some (c, d) => (Ok c, set_deck d g)
       | None => (Raise IndexError, g)
       end.

(** [[self.deck.pop() for _ in range(k)]] *)
Fixpoint pop_many (k : nat) : M (list Card) :=
  match k with
  | O => ret []
  | S k' => c ←' deck_pop ;; cs ←' pop_many k' ;; ret (c :: cs)
  end.

(** Body of the [for player in self.players] loop of [_deal_cards]. *)
Definition deal_body (player : string) : M unit :=
  r ←' get current_round ;;
  hand ←' pop_many (Z.to_nat r) ;;
  modify (λ g, set_hands (<[player := hand]> (hands g)) g).

(** [random.shuffle] is the one source of randomness; it is passed in as the
    function [shuffle] applied to the deck. *)
Definition _deal_cards (shuffle : list Card → list Card) : M unit :=
  modify (λ g, set_deck (shuffle (deck g)) g) ;;'
  ps ←' get players ;;
  for_each ps deal_body.

(** [l[i]] for a list and an integer index (negative indices count from the
    end). *)
Definition list_getitem {A} (l : list A) (i : Z) : M A :=
  let j := if bool_decide (0 ≤ i) then i else Z.of_nat (length l) + i in
  if bool_decide (0 ≤ j)
  then match l !! Z.to_nat j with
       | Some x => ret x
       | None => raise IndexError
       end
  else raise IndexError.

(** [a // b] *)
Definition floordiv (a b : Z) : M Z :=
  if bool_decide (b = 0) then raise ZeroDivisionError else ret (a / b).

Definition start_round (shuffle : list Card → list Card) : M unit :=
  modify (λ g, set_current_round (current_round g + 1) g) ;;'
  n ←' get (λ g, Z.of_nat (length (players g))) ;;
  max_rounds ←' floordiv 60 n ;;
  r ←' get current_round ;;
  assert_ (bool_decide (r ≤ max_rounds))
          ("Game cannot exceed " +:+ str max_rounds +:+ " rounds") ;;'
  modify (λ g, set_tricks_won (dict_from_keys (players g) 0) g) ;;'
  modify (set_predictions ∅) ;;'
  modify (set_current_trick []) ;;'
  modify (set_deck _create_deck) ;;'
  modify (λ g, set_hands (dict_from_keys (players g) []) g) ;;'
  _deal_cards shuffle ;;'
  (if bool_decide (r < max_rounds)
   then d ←' get deck ;;
        if bool_decide (d ≠ [])
        then c ←' deck_pop ;; modify (set_trump_card (Some c))
        else modify (set_trump_card None)
   else ret tt) ;;'
  ps ←' get players ;;
  p ←' list_getitem ps ((r - 1) `mod` n) ;;
  modify (set_current_player (Some p)).

(** ** [make_prediction] *)

Definition make_prediction (player : string) (tricks : Z) : M unit :=
  ps ←' get players ;;
  assert_ (bool_decide (player ∈ ps)) "Invalid player" ;;'
  r ←' get current_round ;;
  assert_ (bool_decide (0 ≤ tricks) && bool_decide (tricks ≤ r)) "Invalid prediction" ;;'
  preds ←' get predictions ;;
  assert_ (bool_decide (preds !! player = None)) "Player already made a prediction" ;;'
  modify (λ g, set_predictions (<[player := tricks]> (predictions g)) g).

(** ** [play_card] and [_determine_trick_winner] *)

Definition is_wizard (c : Card) : bool :=
  bool_decide (c.1 = WHITE) && bool_decide (c.2 = WIZARD).
Definition is_jester (c : Card) : bool :=
  bool_decide (c.1 = WHITE) && bool_decide (c.2 = JESTER).

(** [enumerate(l)] *)
Definition enumerate {A} (l : list A) : list (nat * A) :=
  zip (seq 0 (length l)) l.

(** [a > b] on card values: integers compare by order, strings
    lexicographically, and an integer against a string is a [TypeError]
    ([None]). *)
Definition value_gt (a b : Value) : option bool :=
  match a, b with
  | Rank x, Rank y => Some (bool_decide (y < x))
  | WIZARD, JESTER => Some true
  | WIZARD, WIZARD | JESTER, JESTER | JESTER, WIZARD => Some false
  | _, _ => None
  end.

(** The [for i, card in valid_cards] loop; [w] is
    [(winning_card, winning_index)], [None] before the first iteration. *)
Fixpoint winner_loop (trump : option Card) (valid_cards : list (nat * Card))
    (w : option (Card * nat)) : Outcome (option (Card * nat)) :=
  match valid_cards with
  | [] => Ok w
  | (i, card) :: rest =>
    match w with
    | None => winner_loop trump rest (Some (card, i))
    | Some (winning_card, winning_index) =>
      match trump with
      | None => Raise TypeError
      | Some t =>
        if bool_decide (card.1 = t.1) && bool_decide (winning_card.1 ≠ t.1)
        then winner_loop trump rest (Some (card, i))
        else if bool_decide (card.1 = winning_card.1)
        then match value_gt card.2 winning_card.2 with
             | None => Raise TypeError
             | Some true => winner_loop trump rest (Some (card, i))
             | Some false => winner_loop trump rest w
             end
        else winner_loop trump rest w
      end
    end
  end.

Definition nth_player (ps : list string) (i : nat) : Outcome string :=
  match ps !! i with
  | Some p => Ok p
  | None => Raise IndexError
  end.

Definition _determine_trick_winner (g : Game) : Outcome string :=
  match current_trick g with
  | [] => Raise IndexError
  | lead_card :: _ =>
    let wizards := List.filter (λ ic, is_wizard ic.2) (enumerate (current_trick g)) in
    match wizards with
    | (winner_index, _) :: _ => nth_player (players g) winner_index
    | [] =>
      if forallb is_jester (current_trick g)
      then nth_player (players g) 0
      else
        let valid_cards :=
          List.filter (λ ic, negb (is_jester ic.2)) (enumerate (current_trick g)) in
        match winner_loop (trump_card g) valid_cards None with
        | Raise e => Raise e
        | Ok None => Raise TypeError
        | Ok (Some (_, winning_index)) => nth_player (players g) winning_index
        end
    end
  end.

(** [l.remove(x)]: drops the first occurrence. *)
Fixpoint list_remove (x : Card) (l : list Card) : list Card :=
  match l with
  | [] => []
  | y :: l' => if bool_decide (x = y) then l' else y :: list_remove x l'
  end.

(** [l.index(x)] *)
Fixpoint list_index (x : string) (l : list string) : option nat :=
  match l with
  | [] => None
  | y :: l' => if bool_decide (x = y) then Some O else S <$> list_index x l'
  end.

(** The block [# Validate following suit if possible]. *)
Definition validate_follow_suit (trick hand : list Card) (card : Card) : M unit :=
  match trick with
  | lead :: _ =>
    if bool_decide (card.1 ≠ WHITE)
    then let lead_suit := lead.1 in
         if bool_decide (lead_suit ≠ WHITE)
         then let can_follow := existsb (λ c, bool_decide (c.1 = lead_suit)) hand in
              assert_ (negb can_follow || bool_decide (card.1 = lead_suit))
                      "Must follow suit if possible"
         else ret tt
    else ret tt
  | [] => ret tt
  end.

(** The block [# If trick is complete, determine winner] with its [else]
    branch [# Move to next player]. *)
Definition finish_play (player : string) : M unit :=
  trick ←' get current_trick ;;
  ps ←' get players ;;
  if bool_decide (length trick = length ps)
  then winner ←' (λ g, (_determine_trick_winner g, g)) ;;
       won ←' getitem tricks_won winner ;;
       modify (λ g, set_tricks_won (<[winner := won + 1]> (tricks_won g)) g) ;;'
       modify (set_current_trick []) ;;'
       modify (set_current_player (Some winner))
  else match list_index player ps with
       | None => raise ValueError
       | Some i =>
         let next_index := (Z.of_nat i + 1) `mod` Z.of_nat (length ps) in
         p ←' list_getitem ps next_index ;;
         modify (set_current_player (Some p))
       end.

Definition play_card (player : string) (card : Card) : M unit :=
  cur ←' get current_player ;;
  assert_ (bool_decide (cur = Some player)) "Not this player's turn" ;;'
  hand ←' getitem hands player ;;
  assert_ (bool_decide (card ∈ hand)) "Card not in player's hand" ;;'
  trick ←' get current_trick ;;
  validate_follow_suit trick hand card ;;'
  modify (λ g, set_hands (<[player := list_remove card hand]> (hands g)) g) ;;'
  modify (λ g, set_current_trick (current_trick g ++ [card]) g) ;;'
  finish_play player.

(** ** [calculate_round_scores], [is_round_complete], [is_game_complete] *)

(** [all(len(hand) == 0 for hand in self.hands.values())] *)
Definition all_hands_empty (g : Game) : bool :=
  forallb (λ kv, bool_decide (length kv.2 = 0%nat)) (map_to_list (hands g)).

(** Body of the [for player in self.players] loop. *)
Definition score_player (player : string) : M unit :=
  predicted ←' getitem predictions player ;;
  won ←' getitem tricks_won player ;;
  if bool_decide (predicted = won)
  then score ←' getitem scores player ;;
       modify (λ g, set_scores (<[player := score + (20 + 10 * won)]> (scores g)) g)
  else let difference := Z.abs (predicted - won) in
       score ←' getitem scores player ;;
       modify (λ g, set_scores (<[player := score - 10 * difference]> (scores g)) g).

Definition calculate_round_scores : M unit :=
  done ←' get all_hands_empty ;;
  assert_ done "Round not complete" ;;'
  ps ←' get players ;;
  for_each ps score_player.

Definition is_round_complete (g : Game) : bool := all_hands_empty g.


(** ** Trick resolution without a trump suit

    The comparison of the rules when no suit is trump: a later card replaces
    the winning card only when it has the same suit and a higher rank. *)

Fixpoint winner_loop_no_trump (valid_cards : list (nat * Card))
    (w : option (Card * nat)) : Outcome (option (Card * nat)) :=
  match valid_cards with
  | [] => Ok w
  | (i, card) :: rest =>
    match w with
    | None => winner_loop_no_trump rest (Some (card, i))
    | Some (winning_card, winning_index) =>
      if bool_decide (card.1 = winning_card.1)
      then match value_gt card.2 winning_card.2 with
           | None => Raise TypeError
           | Some true => winner_loop_no_trump rest (Some (card, i))
           | Some false => winner_loop_no_trump rest w
           end
      else winner_loop_no_trump rest w
    end
  end.

Definition trick_winner_no_trump (ps : list string) (trick : list Card)
    : Outcome string :=
  match trick with
  | [] => Raise IndexError
  | _ :: _ =>
    match List.filter (λ ic, is_wizard ic.2) (enumerate trick) with
    | (first_wizard, _) :: _ => nth_player ps first_wizard
    | [] =>
      if forallb is_jester trick then nth_player ps 0
      else
        match winner_loop_no_trump
                (List.filter (λ ic, negb (is_jester ic.2)) (enumerate trick)) None with
        | Raise e => Raise e
        | Ok None => Raise TypeError
        | Ok (Some (_, winning_index)) => nth_player ps winning_index
        end
    end
  end.

(** The cards compared in the last step of [_determine_trick_winner]. *)
Definition compared_cards (trick : list Card) : list (nat * Card) :=
  List.filter (λ ic, negb (is_jester ic.2)) (enumerate trick).

Definition has_wizard (trick : list Card) : bool := existsb is_wizard trick.

Definition special_trump_game : Game :=
  mkGame ["A"; "B"; "C"] 1 (Some (WHITE, JESTER)) (Some "A")
         (dict_from_keys ["A"; "B"; "C"] 0) ∅
         (dict_from_keys ["A"; "B"; "C"] [])
         (dict_from_keys ["A"; "B"; "C"] 0)
         [(BLUE, Rank 10); (RED, Rank 2); (BLUE, Rank 13)] [].

(** ** Dealing orders

    [popped] lists the cards in the order [deck.pop()] returns them, i.e.
    the post-shuffle deck read from its end. *)

(** Hand of seat [i] when cards go round the table one at a time: the
    [j]-th card of seat [i] is pop number [j * n + i]. *)
Definition round_robin_hand (popped : list Card) (n r i : nat) : list Card :=
  omap (λ j, popped !! (j * n + i)%nat) (seq 0 r).

(** Hand of seat [i] when each seat takes [r] consecutive pops. *)
Definition block_hand (popped : list Card) (r i : nat) : list Card :=
  take r (drop (i * r) popped).

Definition deals_round_robin (shuffle : list Card → list Card) (g : Game) : Prop :=
  ∀ g', _deal_cards shuffle g = (Ok tt, g') →
  ∀ i p, players g !! i = Some p →
    hands g' !! p = Some (round_robin_hand (rev (shuffle (deck g)))
                            (length (players g)) (Z.to_nat (current_round g)) i).

(** Three players about to be dealt two cards each. *)
Definition deal_game : Game :=
  set_current_round 2 (fresh_game ["A"; "B"; "C"]).

(** ** Scoring rule and suit rule, as the rules state them *)

(** The per-round score change the rules prescribe. *)
Definition round_delta (predicted won : Z) : Z :=
  if bool_decide (predicted = won) then 20 + 10 * won
  else - (10 * Z.abs (predicted - won)).

(** The engine's test for a special card: suit ['WHITE'], the suit that
    carries the WIZARD and JESTER cards of the deck. *)
Definition is_special (c : Card) : bool := bool_decide (c.1 = WHITE).

Definition must_follow_suit : Error :=
  AssertionError "Must follow suit if possible".

(** The state in which [finish_play] runs once validation has passed. *)
Definition after_play (player : string) (card : Card) (hand : list Card)
    (g : Game) : Game :=
  set_current_trick (current_trick g ++ [card])
    (set_hands (<[player := list_remove card hand]> (hands g)) g).

(** Player B must answer a led BLUE 10 and holds a BLUE card. *)
Definition follow_suit_game : Game :=
  mkGame ["A"; "B"; "C"] 2 (Some (RED, Rank 1)) (Some "B")
         (dict_from_keys ["A"; "B"; "C"] 0) ∅
         (<["B" := [(GREEN, Rank 7); (BLUE, Rank 3); (WHITE, JESTER)]]>
            (dict_from_keys ["A"; "B"; "C"] [(GREEN, Rank 2)]))
         (dict_from_keys ["A"; "B"; "C"] 0) [(BLUE, Rank 10)] [].

(** ** Runs of the engine

    A run starts with [__init__] on a roster of distinct names and continues
    with method calls.  Alongside the state it records what the object does
    not store: how many tricks of the round have been resolved, who has
    played to the unfinished trick, and how many cards have been played in
    the round. *)

Record Ghost := mkGhost {
  tricks_done : nat;
  played_by : list string;
  cards_played : nat
}.

Definition ghost_start : Ghost := mkGhost 0 [] 0.

(** Bookkeeping for a successful [play_card] by [player] in state [g]. *)
Definition ghost_play (g : Game) (player : string) (gh : Ghost) : Ghost :=
  if bool_decide (S (length (current_trick g)) = length (players g))
  then mkGhost (S (tricks_done gh)) [] (S (cards_played gh))
  else mkGhost (tricks_done gh) (played_by gh ++ [player]) (S (cards_played gh)).

(** A shuffle rearranges the deck. *)
Definition is_shuffle (shuffle : list Card → list Card) : Prop :=
  ∀ d, shuffle d ≡ₚ d.

(** States reached by successful [start_round] calls and by
    [make_prediction], [play_card] and [calculate_round_scores] calls of any
    outcome. *)
Inductive reach : Game → Ghost → Prop :=
  | reach_init ps g :
      NoDup ps → __init__ ps = Ok g → reach g ghost_start
  | reach_start g gh shuffle g' :
      reach g gh → is_shuffle shuffle →
      start_round shuffle g = (Ok tt, g') → reach g' ghost_start
  | reach_predict g gh player tricks res g' :
      reach g gh → make_prediction player tricks g = (res, g') → reach g' gh
  | reach_play g gh player card g' :
      reach g gh → play_card player card g = (Ok tt, g') →
      reach g' (ghost_play g player gh)
  | reach_play_error g gh player card e g' :
      reach g gh → play_card player card g = (Raise e, g') → reach g' gh
  | reach_score g gh res g' :
      reach g gh → calculate_round_scores g = (res, g') → reach g' gh.

(** [1] for the player who has already played to the unfinished trick. *)
Definition played_this_trick (gh : Ghost) (p : string) : Z :=
  if bool_decide (p ∈ played_by gh) then 1 else 0.

(** Cards held by the roster's players. *)
Definition cards_in_hands (g : Game) : nat :=
  sum_list (map (λ p, length (default [] (hands g !! p))) (players g)).

(** The count of the deck-size invariant: deck, trump card, hands, and the
    cards played so far in the round. *)
Definition card_count (g : Game) (gh : Ghost) : nat :=
  (length (deck g) + (match trump_card g with Some _ => 1 | None => 0 end)
   + cards_in_hands g
   + cards_played gh)%nat.

Definition max_rounds (g : Game) : Z := 60 `div` Z.of_nat (length (players g)).

(** What every reachable state satisfies. *)
Record inv (g : Game) (gh : Ghost) : Prop := mkInv {
  inv_nodup : NoDup (players g);
  inv_roster : (3 ≤ length (players g) ≤ 6)%nat;
  inv_round : 0 ≤ current_round g ≤ max_rounds g;
  inv_hands_dom : ∀ p, is_Some (hands g !! p) ↔ p ∈ players g;
  inv_won_dom : ∀ p, p ∈ players g → is_Some (tricks_won g !! p);
  inv_scores_dom : ∀ p, p ∈ players g → is_Some (scores g !! p);
  inv_hand_cards : ∀ p h c, hands g !! p = Some h → c ∈ h → c ∈ _create_deck;
  inv_trick_cards : ∀ c, c ∈ current_trick g → c ∈ _create_deck;
  inv_trick_len : length (current_trick g) = length (played_by gh) ∧
                  (length (played_by gh) < length (players g))%nat;
  inv_hand_len : ∀ p h, hands g !! p = Some h →
    Z.of_nat (length h)
      = current_round g - Z.of_nat (tricks_done gh) - played_this_trick gh p;
  inv_before : current_round g = 0 →
    current_player g = None ∧ played_by gh = [] ∧ trump_card g = None;
  inv_turn : 1 ≤ current_round g →
    is_Some (trump_card g) ∧
    ∃ l, (l < length (players g))%nat ∧
      (∀ j, (j < length (played_by gh))%nat →
         played_by gh !! j = players g !! ((l + j) `mod` length (players g))%nat) ∧
      current_player g ≠ None ∧
      current_player g
        = players g !! ((l + length (played_by gh)) `mod` length (players g))%nat;
  inv_deck : Z.of_nat (length (deck g))
    = 60 - Z.of_nat (length (players g)) * current_round g
      - (if bool_decide (1 ≤ current_round g < max_rounds g) then 1 else 0);
  inv_hands_total : Z.of_nat (cards_in_hands g)
    = Z.of_nat (length (players g)) * (current_round g - Z.of_nat (tricks_done gh))
      - Z.of_nat (length (played_by gh));
  inv_played : cards_played gh
    = (length (players g) * tricks_done gh + length (played_by gh))%nat
}.


(** ** Sample games

    A three-player game driven with the shuffle that leaves the deck in
    creation order. *)

Definition roster : list string := ["A"; "B"; "C"].

Definition keep_order : list Card → list Card := λ d, d.

(** [k] calls of [start_round] in a row, stopping at the first exception. *)
Fixpoint start_rounds (k : nat) (shuffle : list Card → list Card) : M unit :=
  match k with
  | O => ret tt
  | S k' => start_rounds k' shuffle ;;' start_round shuffle
  end.

Definition game_in_round (k : nat) : Game :=
  (start_rounds k keep_order (fresh_game roster)).2.

(** Round 1 after player A has played the only card of their hand. *)
Definition mid_trick_game : Game :=
  (play_card "A" (WHITE, JESTER) (game_in_round 1)).2.

(** Round 1 predicted and played to the end: B wins the only trick. *)
Definition predicted_round_one : Game :=
  (make_prediction "C" 0
     (make_prediction "B" 0 (make_prediction "A" 1 (game_in_round 1)).2).2).2.

Definition after_first_play : Game :=
  (play_card "A" (WHITE, JESTER) predicted_round_one).2.

Definition after_second_play : Game :=
  (play_card "B" (WHITE, WIZARD) after_first_play).2.

Definition played_round_one : Game :=
  (play_card "C" (WHITE, JESTER) after_second_play).2.

(** A fresh game in which only A has predicted. *)
Definition half_predicted_game : Game :=
  (make_prediction "A" 0 (fresh_game roster)).2.

(** Seat of the player who played position [pos] of a trick led from seat
    [leader]. *)
Definition seat_from_leader (ps : list string) (leader pos : nat) : option string :=
  ps !! ((leader + pos) `mod` length ps)%nat.

(** The hand-length statement without the correction for the unfinished
    trick. *)
Definition hand_length_claim : Prop :=
  ∀ g gh, reach g gh → ∀ p h, hands g !! p = Some h →
    Z.of_nat (length h) = current_round g - Z.of_nat (tricks_done gh).


(** ** Further notions for the properties below *)

(** Calls that do not start a round. *)
Inductive round_run : Game → Game → Prop :=
  | run_here g : round_run g g
  | run_predict g g1 player tricks res g' :
      round_run g g1 → make_prediction player tricks g1 = (res, g') → round_run g g'
  | run_play g g1 player card res g' :
      round_run g g1 → play_card player card g1 = (res, g') → round_run g g'
  | run_score g g1 res g' :
      round_run g g1 → calculate_round_scores g1 = (res, g') → round_run g g'.


(** The integer rank of an ordinary card. *)
Definition rank_of (c : Card) : Z :=
  match c.2 with
  | Rank n => n
  | _ => 0
  end.

(** Whether one of the enumerated cards has the suit of card [t]. *)
Definition suit_played (t : Card) (cards : list (nat * Card)) : bool :=
  existsb (λ ic : nat * Card, bool_decide (ic.2.1 = t.1)) cards.

(** The players' hands, laid end to end in roster order. *)
Definition dealt_cards (g : Game) : list Card :=
  flat_map (λ p, default [] (hands g !! p)) (players g).

(** The trump card drawn for the current round, if the round has one. *)
Definition drawn_trump (g : Game) : list Card :=
  if bool_decide (current_round g < max_rounds g)
  then option_list (trump_card g) else [].

(** Sample tricks: a game of four with the trick JESTER, WIZARD, WIZARD,
    BLUE 4, and games of three with a trick of JESTERs and with the trick
    BLUE 10, RED 2, BLUE 13 under no trump card and under a RED trump. *)
Definition trick_game (ps : list string) (trump : option Card)
    (trick : list Card) : Game :=
  mkGame ps 1 trump None (dict_from_keys ps 0) ∅ (dict_from_keys ps [])
         (dict_from_keys ps 0) trick [].

Definition wizard_trick_game : Game :=
  trick_game ["A"; "B"; "C"; "D"] (Some (RED, Rank 1))
    [(WHITE, JESTER); (WHITE, WIZARD); (WHITE, WIZARD); (BLUE, Rank 4)].

Definition jester_trick_game : Game :=
  trick_game roster (Some (RED, Rank 1))
    [(WHITE, JESTER); (WHITE, JESTER); (WHITE, JESTER)].

Definition no_trump_game : Game :=
  trick_game roster None [(BLUE, Rank 10); (RED, Rank 2); (BLUE, Rank 13)].

Definition red_trump_game : Game :=
  trick_game roster (Some (RED, Rank 5))
    [(BLUE, Rank 10); (RED, Rank 2); (BLUE, Rank 13)].

(** Two cards each are due, and the deck is empty. *)
Definition short_deck_game : Game := set_deck [] deal_game.

(** * Properties *)

Ltac unfold_monad :=
  unfold assert_, getitem, floordiv, deck_pop, bind, get, modify, ret, raise in *.

Lemma list_getitem_cases {A} (l : list A) (i : Z) (g : Game) :
  (∃ x, list_getitem l i g = (Ok x, g) ∧ x ∈ l) ∨
  list_getitem l i g = (Raise IndexError, g).
Proof.
  unfold list_getitem. unfold_monad.
  repeat case_match; eauto using list_elem_of_lookup_2.
Qed.

(** ** Scoring *)

Section Scoring.

Lemma score_player_missing_prediction p g :
  predictions g !! p = None →
  score_player p g = (Raise (KeyError p), g).
Proof. intros H. unfold score_player. unfold_monad. by rewrite H. Qed.

Lemma score_player_ok p g pr w s :
  predictions g !! p = Some pr →
  tricks_won g !! p = Some w →
  scores g !! p = Some s →
  score_player p g =
    (Ok tt, set_scores (<[p := s + round_delta pr w]> (scores g)) g).
Proof.
  intros Hp Hw Hs. unfold score_player, round_delta. unfold_monad.
  rewrite Hp, Hw. case_bool_decide; rewrite Hs; [done|].
  by rewrite Z.add_opp_r.
Qed.

(** The loop body either raises a [KeyError] with the state untouched or
    rewrites the player's score. *)
Lemma score_player_cases p g :
  (∃ k, score_player p g = (Raise (KeyError k), g)) ∨
  (∃ s, score_player p g = (Ok tt, set_scores (<[p := s]> (scores g)) g)).
Proof.
  destruct (predictions g !! p) as [pr|] eqn:Hp;
    [|left; eexists; by apply score_player_missing_prediction].
  destruct (tricks_won g !! p) as [w|] eqn:Hw.
  - destruct (scores g !! p) as [s|] eqn:Hs.
    + right. eexists. by eapply score_player_ok.
    + left. exists p. unfold score_player. unfold_monad.
      rewrite Hp, Hw. case_bool_decide; by rewrite Hs.
  - left. exists p. unfold score_player. unfold_monad. by rewrite Hp, Hw.
Qed.

Lemma scoring_loop_missing_prediction ps : ∀ g,
  Exists (λ p, predictions g !! p = None) ps →
  ∃ k g', for_each ps score_player g = (Raise (KeyError k), g').
Proof.
  induction ps as [|p ps IH]; intros g Hex; [by inversion Hex|].
  simpl. unfold bind.
  destruct (score_player_cases p g) as [[k Hk]|[s Hs]];
    rewrite ?Hk, ?Hs; [by eauto|].
  apply Exists_cons in Hex as [Hnone|Hex].
  - rewrite (score_player_missing_prediction _ _ Hnone) in Hs. done.
  - by apply IH.
Qed.

Lemma set_scores_set_scores sc sc' g :
  set_scores sc' (set_scores sc g) = set_scores sc' g.
Proof. done. Qed.

Lemma set_scores_id g : set_scores (scores g) g = g.
Proof. by destruct g. Qed.

(** With distinct players whose dictionary entries all exist, the loop
    completes and changes exactly the score of each player, once. *)
Lemma scoring_loop_ok ps : ∀ g,
  NoDup ps →
  Forall (λ p, is_Some (predictions g !! p) ∧ is_Some (tricks_won g !! p)
               ∧ is_Some (scores g !! p)) ps →
  ∃ sc', for_each ps score_player g = (Ok tt, set_scores sc' g) ∧
    (∀ p, p ∉ ps → sc' !! p = scores g !! p) ∧
    (∀ p pr w s, p ∈ ps → predictions g !! p = Some pr →
       tricks_won g !! p = Some w → scores g !! p = Some s →
       sc' !! p = Some (s + round_delta pr w)).
Proof.
  induction ps as [|p ps IH]; intros g Hnd Hall.
  - exists (scores g). simpl. unfold ret. rewrite set_scores_id.
    split_and!; [done|done|]. intros ???? Hin. by apply elem_of_nil in Hin.
  - apply NoDup_cons in Hnd as [Hnotin Hnd].
    apply Forall_cons in Hall as [([pr Hpr] & [w Hw] & [s Hs]) Hall].
    simpl. unfold bind. rewrite (score_player_ok _ _ _ _ _ Hpr Hw Hs).
    set (g1 := set_scores _ g).
    destruct (IH g1 Hnd) as (sc' & Hrun & Hother & Hin).
    { eapply Forall_impl; [exact Hall|]. intros q (? & ? & ?).
      split_and!; [done|done|]. subst g1. simpl.
      destruct (decide (p = q)) as [->|Hne];
        [rewrite lookup_insert_eq; eauto|by rewrite lookup_insert_ne]. }
    exists sc'. rewrite Hrun. split_and!; [done|..].
    + intros q Hq. apply not_elem_of_cons in Hq as [Hqp Hq].
      rewrite (Hother q Hq). subst g1. simpl. by rewrite lookup_insert_ne.
    + intros q pr' w' s' Hq Hpr' Hw' Hs'.
      apply elem_of_cons in Hq as [->|Hq].
      * rewrite (Hother p Hnotin). subst g1. simpl.
        rewrite lookup_insert_eq. congruence.
      * apply (Hin q pr' w' s' Hq); [done|done|]. subst g1. simpl.
        rewrite lookup_insert_ne; [done|]. intros ->. done.
Qed.

End Scoring.

(** C10: with every hand empty but some roster player lacking a recorded
    prediction, [calculate_round_scores] raises a [KeyError], which is not
    the "Round not complete" assertion failure. *)
Theorem calculate_round_scores_missing_prediction (g : Game) :
  all_hands_empty g = true →
  Exists (λ p, predictions g !! p = None) (players g) →
  ∃ k g', calculate_round_scores g = (Raise (KeyError k), g') ∧
          KeyError k ≠ AssertionError "Round not complete".
Proof.
  intros Hempty Hex. unfold calculate_round_scores. unfold_monad.
  rewrite Hempty.
  destruct (scoring_loop_missing_prediction _ g Hex) as (k & g' & ->).
  by exists k, g'.
Qed.

Lemma calculate_round_scores_missing_prediction_witness :
  ∃ k g', calculate_round_scores (fresh_game ["A"; "B"; "C"])
            = (Raise (KeyError k), g') ∧
          KeyError k ≠ AssertionError "Round not complete".
Proof.
  apply calculate_round_scores_missing_prediction.
  - vm_compute. reflexivity.
  - apply Exists_cons_hd. vm_compute. reflexivity.
Defined.

(** ** Following suit *)

Section FollowSuit.

Lemma special_cards_of_deck :
  Forall (λ c, is_special c = true ↔ c.2 = WIZARD ∨ c.2 = JESTER) _create_deck.
Proof.
  apply Forall_forall. intros c Hc.
  vm_compute in Hc. unfold is_special.
  repeat (apply elem_of_cons in Hc as [->|Hc]);
    try (by apply elem_of_nil in Hc);
    simpl; (split; [intros ?; try done; auto | intros [?|?]; done]).
Qed.

Lemma winner_loop_error trump vs : ∀ w e,
  winner_loop trump vs w = Raise e → e = TypeError.
Proof.
  induction vs as [|[i card] vs IH]; intros w e; simpl; [done|].
  destruct w as [[wc wi]|]; [|by apply IH].
  destruct trump as [t|]; [|by intros [= <-]].
  repeat case_match; try (by apply IH); by intros [= <-].
Qed.

Lemma nth_player_error ps i e : nth_player ps i = Raise e → e = IndexError.
Proof. unfold nth_player. case_match; [done|by intros [= <-]]. Qed.

Lemma _determine_trick_winner_error g e :
  _determine_trick_winner g = Raise e → e = IndexError ∨ e = TypeError.
Proof.
  unfold _determine_trick_winner.
  destruct (current_trick g) as [|lead rest]; [intros [= <-]; by left|].
  destruct (List.filter _ _) as [|[wi ?] ?].
  - destruct (forallb _ _); [intros ?%nth_player_error; by left|].
    destruct (winner_loop _ _ _) as [[[? wi]|]|e'] eqn:Hloop.
    + intros ?%nth_player_error; by left.
    + intros [= <-]; by right.
    + intros [= <-]. right. by eapply winner_loop_error.
  - intros ?%nth_player_error; by left.
Qed.

Lemma finish_play_error player g e :
  (finish_play player g).1 = Raise e → ∀ msg, e ≠ AssertionError msg.
Proof.
  unfold finish_play. unfold_monad. intros H msg ->. revert H.
  case_bool_decide.
  - destruct (_determine_trick_winner g) as [w|e] eqn:Hw; simpl.
    + destruct (tricks_won g !! w); simpl; done.
    + intros [= ->]. by apply _determine_trick_winner_error in Hw as [?|?].
  - destruct (list_index player (players g)); simpl; [|done].
    destruct (list_getitem_cases (players g) ((Z.of_nat n + 1) `mod` Z.of_nat (length (players g))) g)
      as [(x & -> & _)| ->]; simpl; done.
Qed.

(** The suit check raises exactly under the five conditions. *)
Lemma validate_follow_suit_raises trick hand card g :
  (validate_follow_suit trick hand card g).1 = Raise must_follow_suit
  ↔ ∃ lead, head trick = Some lead ∧ is_special lead = false ∧
      is_special card = false ∧ (∃ c, c ∈ hand ∧ c.1 = lead.1) ∧
      card.1 ≠ lead.1.
Proof.
  unfold validate_follow_suit, is_special. unfold_monad.
  destruct trick as [|lead rest]; simpl.
  { split; [done|]. by intros (? & ? & _). }
  split.
  - intros H. exists lead. split; [done|]. revert H.
    repeat case_bool_decide; simpl; try done.
    + destruct (existsb _ _) eqn:Hex; simpl; [|done]. done.
    + destruct (existsb _ _) eqn:Hex; simpl; [|done]. intros _.
      apply existsb_exists in Hex as (c & Hc & Heq).
      apply bool_decide_eq_true in Heq. apply list_elem_of_In in Hc.
      split_and!; [done|done|eauto|done].
  - intros (? & [= <-] & Hl & Hc & (c & Hin & Hsuit) & Hne).
    apply bool_decide_eq_false in Hl, Hc.
    rewrite !bool_decide_true by done.
    rewrite (bool_decide_false (card.1 = lead.1)) by done.
    replace (existsb _ hand) with true; [done|].
    symmetry. apply existsb_exists. exists c.
    split; [by apply list_elem_of_In|by apply bool_decide_eq_true].
Qed.

Lemma validate_follow_suit_state trick hand card g :
  (validate_follow_suit trick hand card g).2 = g.
Proof.
  unfold validate_follow_suit. unfold_monad.
  repeat case_match; done.
Qed.

Lemma validate_follow_suit_outcome trick hand card g :
  (validate_follow_suit trick hand card g).1 = Ok tt ∨
  (validate_follow_suit trick hand card g).1 = Raise must_follow_suit.
Proof.
  unfold validate_follow_suit. unfold_monad.
  repeat case_match; auto.
Qed.

End FollowSuit.

Lemma play_card_validated g player card hand :
  current_player g = Some player →
  hands g !! player = Some hand →
  card ∈ hand →
  play_card player card g =
    match (validate_follow_suit (current_trick g) hand card g).1 with
    | Ok _ => finish_play player (after_play player card hand g)
    | Raise e => (Raise e, g)
    end.
Proof.
  intros Hcur Hhand Hin. unfold play_card.
  pose proof (validate_follow_suit_state (current_trick g) hand card g) as Hst.
  unfold_monad. rewrite Hcur, bool_decide_true by done.
  rewrite Hhand, bool_decide_true by done.
  destruct (validate_follow_suit _ _ _ _) as [[[]|e] g']; simpl in *; by subst.
Qed.

(** C5: for the current player and a card of their hand, [play_card] raises
    "Must follow suit if possible" exactly when the trick is non-empty, the
    led card and the played card are both not special, the hand holds a card
    of the lead suit, and the played card's suit differs from the lead suit.
    Hence a special card never raises it, and neither does any card played
    on a special lead. *)
Theorem play_card_must_follow_suit_iff (g : Game) (player : string)
    (card : Card) (hand : list Card) :
  current_player g = Some player →
  hands g !! player = Some hand →
  card ∈ hand →
  ((play_card player card g).1 = Raise must_follow_suit ↔
     ∃ lead, head (current_trick g) = Some lead ∧
       is_special lead = false ∧ is_special card = false ∧
       (∃ c, c ∈ hand ∧ c.1 = lead.1) ∧ card.1 ≠ lead.1) ∧
  (is_special card = true →
     (play_card player card g).1 ≠ Raise must_follow_suit) ∧
  (∀ lead, head (current_trick g) = Some lead → is_special lead = true →
     (play_card player card g).1 ≠ Raise must_follow_suit).
Proof.
  intros Hcur Hhand Hin.
  assert (Hiff : (play_card player card g).1 = Raise must_follow_suit ↔
     ∃ lead, head (current_trick g) = Some lead ∧
       is_special lead = false ∧ is_special card = false ∧
       (∃ c, c ∈ hand ∧ c.1 = lead.1) ∧ card.1 ≠ lead.1).
  { rewrite <- (validate_follow_suit_raises _ _ _ g).
    rewrite (play_card_validated _ _ _ _ Hcur Hhand Hin).
    destruct (validate_follow_suit_outcome (current_trick g) hand card g)
      as [Hok|Herr]; rewrite ?Hok, ?Herr; [|done].
    split; [|done]. intros Hfin.
    by destruct (finish_play_error _ _ _ Hfin "Must follow suit if possible"). }
  split_and!; [done|..].
  - intros Hsp Hraise. apply Hiff in Hraise as (? & _ & _ & Hc & _). congruence.
  - intros lead Hlead Hsp Hraise.
    apply Hiff in Hraise as (? & Hhd & Hl & _). congruence.
Qed.

Lemma play_card_must_follow_suit_iff_witness :
  (play_card "B" (GREEN, Rank 7) follow_suit_game).1 = Raise must_follow_suit ∧
  (play_card "B" (WHITE, JESTER) follow_suit_game).1 ≠ Raise must_follow_suit.
Proof.
  split.
  - apply (play_card_must_follow_suit_iff follow_suit_game "B" (GREEN, Rank 7)
             [(GREEN, Rank 7); (BLUE, Rank 3); (WHITE, JESTER)]).
    + reflexivity.
    + vm_compute. reflexivity.
    + apply list_elem_of_here.
    + exists (BLUE, Rank 10). split_and!; [reflexivity|reflexivity|reflexivity| |discriminate].
      exists (BLUE, Rank 3). split; [|reflexivity].
      apply list_elem_of_further, list_elem_of_here.
  - apply (play_card_must_follow_suit_iff follow_suit_game "B" (WHITE, JESTER)
             [(GREEN, Rank 7); (BLUE, Rank 3); (WHITE, JESTER)]).
    + reflexivity.
    + vm_compute. reflexivity.
    + do 2 apply list_elem_of_further. apply list_elem_of_here.
    + reflexivity.
Defined.

(** ** A special card as trump *)

Section SpecialTrump.

Lemma deck_card_white (c : Card) :
  c ∈ _create_deck → c.1 = WHITE → is_wizard c = true ∨ is_jester c = true.
Proof.
  intros Hc. vm_compute in Hc.
  repeat (apply elem_of_cons in Hc as [->|Hc]);
    try (by apply elem_of_nil in Hc); simpl; try done; auto.
Qed.

Lemma enumerate_snd {A} (l : list A) i x : (i, x) ∈ enumerate l → x ∈ l.
Proof. unfold enumerate. apply elem_of_zip_r. Qed.

Lemma filter_nil_false {A} (f : A → bool) l x :
  List.filter f l = [] → x ∈ l → f x = false.
Proof.
  intros Hnil Hin. destruct (f x) eqn:Hf; [|done].
  assert (In x (List.filter f l)) as Hx
    by (apply filter_In; split; [by apply list_elem_of_In|done]).
  rewrite Hnil in Hx. destruct Hx.
Qed.

(** Without a wizard in the trick, no compared card of the deck is white. *)
Lemma compared_cards_not_white trick i c :
  Forall (λ c, c ∈ _create_deck) trick →
  has_wizard trick = false →
  (i, c) ∈ compared_cards trick → c.1 ≠ WHITE.
Proof.
  intros Hdeck Hnw Hin Hwhite. unfold compared_cards in Hin.
  apply list_elem_of_In, filter_In in Hin as [Hin Hnj].
  apply list_elem_of_In, enumerate_snd in Hin. simpl in Hnj.
  rewrite Forall_forall in Hdeck.
  destruct (deck_card_white c (Hdeck _ Hin) Hwhite) as [Hw|Hj].
  - assert (existsb is_wizard trick = true) as Hex
      by (apply existsb_exists; exists c; by rewrite <- list_elem_of_In).
    unfold has_wizard in Hnw. congruence.
  - by rewrite Hj in Hnj.
Qed.

Lemma winner_loop_white_trump v vs : ∀ w,
  (∀ i c, (i, c) ∈ vs → c.1 ≠ WHITE) →
  winner_loop (Some (WHITE, v)) vs w = winner_loop_no_trump vs w.
Proof.
  induction vs as [|[i card] vs IH]; intros w Hvs; [done|].
  assert (∀ i c, (i, c) ∈ vs → c.1 ≠ WHITE) as Hrest
    by (intros ???; eapply Hvs; by apply list_elem_of_further).
  simpl. destruct w as [[wc wi]|]; [|by apply IH].
  rewrite (bool_decide_false (card.1 = WHITE))
    by (eapply Hvs; apply list_elem_of_here).
  simpl. repeat case_match; by rewrite ?IH.
Qed.

Lemma no_wizard_filter trick :
  List.filter (λ ic : nat * Card, is_wizard ic.2) (enumerate trick) = [] →
  has_wizard trick = false.
Proof.
  intros Hnil. unfold has_wizard.
  destruct (existsb is_wizard trick) eqn:Hex; [|done].
  apply existsb_exists in Hex as (c & Hc & Hw).
  apply list_elem_of_In, list_elem_of_lookup in Hc as [i Hi].
  assert ((i, c) ∈ enumerate trick) as Hin.
  { unfold enumerate. apply list_elem_of_lookup. exists i.
    apply lookup_zip_with_Some. exists i, c. split_and!; [done| |done].
    apply lookup_seq. split; [done|]. by eapply lookup_lt_Some. }
  pose proof (filter_nil_false _ _ _ Hnil Hin) as Hf. simpl in Hf. congruence.
Qed.

End SpecialTrump.

(** C9: when the trump card is a WIZARD or JESTER (suit ['WHITE']) and the
    trick holds cards of the deck, [_determine_trick_winner] returns what
    the resolution without any trump suit returns; and once no wizard
    decides the trick, no card that enters the comparison has the trump's
    suit. *)
Theorem special_trump_is_no_trump (g : Game) (v : Value) :
  trump_card g = Some (WHITE, v) →
  Forall (λ c, c ∈ _create_deck) (current_trick g) →
  _determine_trick_winner g
    = trick_winner_no_trump (players g) (current_trick g) ∧
  (has_wizard (current_trick g) = false →
   ∀ i c, (i, c) ∈ compared_cards (current_trick g) → c.1 ≠ WHITE).
Proof.
  intros Htrump Hdeck. split.
  - unfold _determine_trick_winner, trick_winner_no_trump.
    destruct (current_trick g) as [|lead rest] eqn:Htrick; [done|].
    destruct (List.filter (λ ic : nat * Card, is_wizard ic.2) _) eqn:Hwiz; [|done].
    destruct (forallb _ _); [done|].
    rewrite Htrump, winner_loop_white_trump; [done|].
    intros i c Hin. eapply compared_cards_not_white; [done| |exact Hin].
    by apply no_wizard_filter.
  - intros Hnw i c. by apply compared_cards_not_white.
Qed.

Lemma special_trump_is_no_trump_witness :
  _determine_trick_winner special_trump_game = Ok "C" ∧
  trick_winner_no_trump (players special_trump_game)
                        (current_trick special_trump_game) = Ok "C".
Proof.
  assert (H : _determine_trick_winner special_trump_game
              = trick_winner_no_trump (players special_trump_game)
                                      (current_trick special_trump_game)).
  { apply (special_trump_is_no_trump special_trump_game JESTER).
    - reflexivity.
    - apply (bool_decide_unpack _). vm_compute. exact I. }
  split; [reflexivity|]. rewrite <- H. reflexivity.
Defined.

(** ** Dealing *)

Section Dealing.

Lemma pop_rev_cons c R : pop (rev (c :: R)) = Some (c, rev R).
Proof.
  unfold pop. simpl. rewrite last_snoc. f_equal. f_equal.
  apply removelast_last.
Qed.

Lemma pop_nil : pop [] = None.
Proof. done. Qed.

(** [k] pops return the first [k] cards of the pop order. *)
Lemma pop_many_ok k : ∀ g R,
  deck g = rev R → (k ≤ length R)%nat →
  pop_many k g = (Ok (take k R), set_deck (rev (drop k R)) g).
Proof.
  induction k as [|k IH]; intros g R Hdeck Hlen; simpl.
  - unfold ret. rewrite drop_0, <- Hdeck. by destruct g.
  - destruct R as [|c R]; [simpl in Hlen; lia|].
    unfold_monad. rewrite Hdeck, pop_rev_cons.
    rewrite (IH (set_deck (rev R) g) R); [done|done|simpl in *; lia].
Qed.

(** Running out of cards raises [IndexError]. *)
Lemma pop_many_short k : ∀ g,
  (length (deck g) < k)%nat → ∃ g', pop_many k g = (Raise IndexError, g').
Proof.
  induction k as [|k IH]; intros g Hlen; [lia|].
  simpl. unfold_monad.
  destruct (deck g) as [|c0 d0] eqn:Hd using rev_ind.
  - rewrite pop_nil. eauto.
  - clear IHd0. replace (d0 ++ [c0]) with (rev (c0 :: rev d0))
      by (simpl; by rewrite rev_involutive).
    rewrite pop_rev_cons, rev_involutive.
    destruct (IH (set_deck d0 g)) as [g' ->]; [|eauto].
    simpl. rewrite length_app in Hlen. simpl in Hlen. lia.
Qed.

Lemma deal_body_ok p g R :
  let r := Z.to_nat (current_round g) in
  deck g = rev R → (r ≤ length R)%nat →
  deal_body p g = (Ok tt, set_hands (<[p := take r R]> (hands g))
                            (set_deck (rev (drop r R)) g)).
Proof.
  intros r Hdeck Hlen. subst r. unfold deal_body. unfold_monad.
  by rewrite (pop_many_ok _ g R Hdeck Hlen).
Qed.

Lemma deal_loop_ok ps : ∀ g R,
  let r := Z.to_nat (current_round g) in
  deck g = rev R → NoDup ps → (length ps * r ≤ length R)%nat →
  ∃ hs, for_each ps deal_body g
          = (Ok tt, set_hands hs (set_deck (rev (drop (length ps * r) R)) g)) ∧
    (∀ p, p ∉ ps → hs !! p = hands g !! p) ∧
    (∀ i p, ps !! i = Some p → hs !! p = Some (block_hand R r i)).
Proof.
  induction ps as [|p ps IH]; intros g R r Hdeck Hnd Hlen.
  - exists (hands g). simpl. unfold ret. rewrite drop_0, <- Hdeck.
    split_and!; [by destruct g|done|done].
  - apply NoDup_cons in Hnd as [Hnotin Hnd]. simpl in Hlen.
    simpl. unfold bind. rewrite (deal_body_ok p g R Hdeck) by (fold r; lia).
    fold r. set (g1 := set_hands _ _).
    destruct (IH g1 (drop r R)) as (hs & Hrun & Hother & Hin);
      [by subst g1|done|subst g1; simpl; fold r; rewrite length_drop; lia|].
    exists hs. split_and!.
    + rewrite Hrun. subst g1. simpl. fold r. by rewrite drop_drop.
    + intros q Hq. apply not_elem_of_cons in Hq as [Hne Hq].
      rewrite (Hother q Hq). subst g1. simpl. by rewrite lookup_insert_ne.
    + intros [|i] q Hq; simpl in Hq.
      * injection Hq as <-. rewrite (Hother p Hnotin). subst g1. simpl.
        rewrite lookup_insert_eq. unfold block_hand. by rewrite drop_0.
      * rewrite (Hin i q Hq). subst g1. simpl. fold r.
        unfold block_hand. rewrite drop_drop.
        by replace (r + i * r)%nat with (S i * r)%nat by lia.
Qed.

End Dealing.

(** C4 as stated fails: with the post-shuffle deck in reverse creation order,
    three players and two cards each, the first player is dealt the first
    two pops, not pops 0 and 3 of the interleaved order. *)
Lemma _deal_cards_not_round_robin : ¬ deals_round_robin (@rev Card) deal_game.
Proof.
  intros H.
  pose (res := _deal_cards (@rev Card) deal_game).
  assert (Hres : res = (Ok tt, res.2)) by (vm_compute; reflexivity).
  specialize (H res.2 Hres 0%nat "A" eq_refl).
  vm_compute in H. discriminate H.
Qed.

(** C4, amended: for a roster of distinct players and a post-shuffle deck
    holding at least [n * r] cards, [_deal_cards] succeeds, each player's
    hand is the block of [r] consecutive pops that starts at pop number
    [i * r] for seat [i], and the deck keeps the cards that were not
    popped. *)
Theorem _deal_cards_blocks (shuffle : list Card → list Card) (g : Game) :
  let n := length (players g) in
  let r := Z.to_nat (current_round g) in
  NoDup (players g) →
  (n * r ≤ length (shuffle (deck g)))%nat →
  ∃ g', _deal_cards shuffle g = (Ok tt, g') ∧
    deck g' = take (length (shuffle (deck g)) - n * r) (shuffle (deck g)) ∧
    ∀ i p, players g !! i = Some p →
      hands g' !! p = Some (block_hand (rev (shuffle (deck g))) r i).
Proof.
  intros n r Hnd Hlen. unfold _deal_cards. unfold_monad.
  set (g0 := set_deck (shuffle (deck g)) g).
  destruct (deal_loop_ok (players g) g0 (rev (shuffle (deck g))))
    as (hs & Hrun & _ & Hin);
    [by rewrite rev_involutive|done|by rewrite length_rev|].
  change (players g0) with (players g). simpl in Hrun. rewrite Hrun. eexists. split_and!; [done| |done].
  simpl. fold n r. by rewrite skipn_rev, rev_involutive.
Qed.

Lemma _deal_cards_blocks_witness :
  ∃ g', _deal_cards (@rev Card) deal_game = (Ok tt, g') ∧
    deck g' = take (60 - 3 * 2) (rev _create_deck) ∧
    ∀ i p, players deal_game !! i = Some p →
      hands g' !! p = Some (block_hand (rev (rev _create_deck)) 2 i).
Proof.
  apply (_deal_cards_blocks (@rev Card) deal_game).
  - apply (bool_decide_unpack _). vm_compute. exact I.
  - vm_compute. lia.
Defined.

(** ** Starting a round *)

Section StartRound.

Lemma _deal_cards_ok (shuffle : list Card → list Card) (g : Game) :
  let n := length (players g) in
  let r := Z.to_nat (current_round g) in
  NoDup (players g) →
  (n * r ≤ length (shuffle (deck g)))%nat →
  ∃ hs, _deal_cards shuffle g
      = (Ok tt, set_hands hs
                  (set_deck (take (length (shuffle (deck g)) - n * r) (shuffle (deck g))) g)) ∧
    (∀ p, p ∉ players g → hs !! p = hands g !! p) ∧
    (∀ i p, players g !! i = Some p →
      hs !! p = Some (block_hand (rev (shuffle (deck g))) r i)).
Proof.
  intros n r Hnd Hlen. unfold _deal_cards. unfold_monad.
  set (g0 := set_deck (shuffle (deck g)) g).
  destruct (deal_loop_ok (players g) g0 (rev (shuffle (deck g))))
    as (hs & Hrun & Hout & Hin);
    [by rewrite rev_involutive|done|by rewrite length_rev|].
  change (players g0) with (players g). simpl in Hrun. rewrite Hrun.
  exists hs. split_and!; [|done|done].
  simpl. fold n r. by rewrite skipn_rev, rev_involutive.
Qed.

Lemma list_getitem_ok {A} (l : list A) (i : Z) x g :
  0 ≤ i → l !! Z.to_nat i = Some x → list_getitem l i g = (Ok x, g).
Proof.
  intros Hi Hx. unfold list_getitem. cbv zeta.
  rewrite (bool_decide_true (0 ≤ i)) by done.
  rewrite (bool_decide_true (0 ≤ i)) by done. by rewrite Hx.
Qed.

Lemma create_deck_length : length _create_deck = 60%nat.
Proof. reflexivity. Qed.

Lemma pop_snoc d c : pop (d ++ [c]) = Some (c, d).
Proof. unfold pop. by rewrite last_snoc, removelast_last. Qed.

Lemma foldl_insert_lookup {V} (ks : list string) (v : V) : ∀ (acc : gmap string V) k,
  foldl (λ d k, <[k := v]> d) acc ks !! k
    = if bool_decide (k ∈ ks) then Some v else acc !! k.
Proof.
  induction ks as [|k0 ks IH]; intros acc k; simpl; [done|].
  rewrite IH. destruct (decide (k ∈ ks)) as [Hin|Hnin].
  - rewrite !bool_decide_true; [done|by right|done].
  - rewrite (bool_decide_false (k ∈ ks)) by done.
    destruct (decide (k = k0)) as [->|Hne].
    + rewrite lookup_insert_eq, bool_decide_true; [done|by left].
    + rewrite lookup_insert_ne by done. rewrite bool_decide_false; [done|].
      by intros [?|?]%elem_of_cons.
Qed.

Lemma dict_from_keys_lookup {V} (ks : list string) (v : V) k :
  dict_from_keys ks v !! k = if bool_decide (k ∈ ks) then Some v else None.
Proof. unfold dict_from_keys. by rewrite foldl_insert_lookup, lookup_empty. Qed.

Lemma start_round_ok sh g :
  let n := Z.of_nat (length (players g)) in
  let r := current_round g + 1 in
  NoDup (players g) → 0 < n → 0 ≤ current_round g → r ≤ 60 `div` n →
  length (sh _create_deck) = 60%nat →
  ∃ hs dk tr cur,
    start_round sh g
      = (Ok tt, mkGame (players g) r tr (Some cur) (scores g) ∅ hs
                       (dict_from_keys (players g) 0) [] dk) ∧
    players g !! Z.to_nat (current_round g `mod` n) = Some cur ∧
    (∀ p, p ∉ players g → hs !! p = None) ∧
    (∀ i p, players g !! i = Some p →
       hs !! p = Some (block_hand (rev (sh _create_deck)) (Z.to_nat r) i)) ∧
    (if bool_decide (r < 60 `div` n)
     then ∃ c, tr = Some c ∧ dk ++ [c] = take (60 - Z.to_nat (n * r)) (sh _create_deck)
     else tr = trump_card g ∧ dk = take (60 - Z.to_nat (n * r)) (sh _create_deck)).
Proof.
  intros n r Hnd Hn Hr0 Hr Hsh.
  assert (n * (60 `div` n) ≤ 60) as Hmax by (apply Z.mul_div_le; lia).
  assert (n * r ≤ 60) as Hnr by nia.
  unfold start_round.
  unfold bind, modify, get, floordiv, assert_, ret, raise.
  cbn [players current_round set_current_round set_tricks_won set_predictions
       set_current_trick set_deck set_hands].
  fold n r.
  rewrite bool_decide_false by lia.
  rewrite (bool_decide_true (r ≤ _)) by done.
  set (g5 := set_hands _ _).
  destruct (_deal_cards_ok sh g5) as (hs & Hdeal & Hout & Hin); [done|..].
  { subst g5. simpl. rewrite Hsh. lia. }
  rewrite Hdeal. subst g5. simpl in *.
  rewrite Hsh in *.
  replace (length (players g) * Z.to_nat r)%nat with (Z.to_nat (n * r)) by lia.
  destruct (lookup_lt_is_Some_2 (players g) (Z.to_nat (current_round g `mod` n)))
    as [cur Hcur].
  { pose proof (Z.mod_pos_bound (current_round g) n Hn). lia. }
  assert (∀ p, p ∉ players g → hs !! p = None) as Hout'.
  { intros p Hp. rewrite (Hout p Hp), dict_from_keys_lookup.
    by rewrite bool_decide_false. }
  replace (r - 1) with (current_round g) by lia.
  case_bool_decide as Hlt.
  - set (T := take _ (sh _create_deck)).
    assert (length T ≠ 0%nat) as HT.
    { subst T. rewrite length_take, Hsh. nia. }
    destruct T as [|c0 T0] eqn:HeqT using rev_ind; [done|]. clear IHT0.
    rewrite bool_decide_true by (by destruct T0).
    unfold deck_pop. simpl. rewrite pop_snoc. simpl.
    rewrite (list_getitem_ok _ _ cur); [|apply Z.mod_pos_bound; lia|done].
    exists hs, T0, (Some c0), cur. split_and!; [done..|]. by exists c0.
  - exists hs, (take (60 - Z.to_nat (n * r)) (sh _create_deck)), (trump_card g), cur.
    rewrite (list_getitem_ok _ _ cur); [|apply Z.mod_pos_bound; lia|done].
    split_and!; done.
Qed.

(** Past the last round the call raises, with the counter already
    advanced. *)
Lemma start_round_limit sh g :
  let n := Z.of_nat (length (players g)) in
  0 < n → 60 `div` n < current_round g + 1 →
  start_round sh g
    = (Raise (AssertionError ("Game cannot exceed " +:+ str (60 `div` n) +:+ " rounds")),
       set_current_round (current_round g + 1) g).
Proof.
  intros n Hn Hr. unfold start_round.
  unfold bind, modify, get, floordiv, assert_, ret, raise.
  simpl. fold n.
  rewrite bool_decide_false by lia. simpl.
  by rewrite bool_decide_false by lia.
Qed.

(** In the last round [start_round] does not touch [trump_card]. *)
Lemma start_round_final_trump sh g g' :
  let n := Z.of_nat (length (players g)) in
  NoDup (players g) → 0 < n → 0 ≤ current_round g →
  length (sh _create_deck) = 60%nat →
  current_round g + 1 = 60 `div` n →
  start_round sh g = (Ok tt, g') →
  trump_card g' = trump_card g.
Proof.
  intros n Hnd Hn Hr0 Hsh Hr Hrun.
  destruct (start_round_ok sh g Hnd Hn Hr0) as (hs & dk & tr & cur & Heq & _ & _ & _ & Htr);
    [fold n; lia|done|].
  fold n in Htr. rewrite bool_decide_false in Htr by lia.
  destruct Htr as [-> _]. rewrite Hrun in Heq. by injection Heq as ->.
Qed.

End StartRound.

(** ** Invariants of reachable states *)

Section Seats.

Lemma mod_seat_inj (n l j k : nat) :
  (j < n)%nat → (k < n)%nat →
  ((l + j) `mod` n = (l + k) `mod` n)%nat → j = k.
Proof.
  intros Hj Hk Heq.
  assert (Z.of_nat (l + j) `mod` Z.of_nat n = Z.of_nat (l + k) `mod` Z.of_nat n) as HZ
    by (rewrite <- !Nat2Z.inj_mod; by f_equal).
  apply Z.cong_iff_ex in HZ as [q Hq].
  assert (q = 0) by nia. lia.
Qed.

Lemma mod_seat_cover (n l i : nat) :
  (l < n)%nat → (i < n)%nat → ∃ j, (j < n)%nat ∧ ((l + j) `mod` n)%nat = i.
Proof.
  intros Hl Hi. destruct (decide (l ≤ i)%nat).
  - exists (i - l)%nat. split; [lia|].
    replace (l + (i - l))%nat with i by lia. by apply Nat.mod_small.
  - exists (i + n - l)%nat. split; [lia|].
    replace (l + (i + n - l))%nat with (i + 1 * n)%nat by lia.
    rewrite Nat.Div0.mod_add. by apply Nat.mod_small.
Qed.

Lemma mod_seat_next (n i : nat) :
  (0 < n)%nat →
  Z.to_nat ((Z.of_nat (i `mod` n) + 1) `mod` Z.of_nat n) = ((i + 1) `mod` n)%nat.
Proof.
  intros Hn. rewrite Nat2Z.inj_mod.
  rewrite Z.add_mod_idemp_l by lia.
  replace (Z.of_nat i + 1) with (Z.of_nat (i + 1)) by lia.
  rewrite <- Nat2Z.inj_mod. apply Nat2Z.id.
Qed.

Lemma list_index_lookup ps : ∀ i p,
  NoDup ps → ps !! i = Some p → list_index p ps = Some i.
Proof.
  induction ps as [|q ps IH]; intros i p Hnd Hi; [done|].
  apply NoDup_cons in Hnd as [Hq Hnd]. simpl.
  destruct i as [|i]; simpl in Hi.
  - injection Hi as ->. by rewrite bool_decide_true.
  - rewrite bool_decide_false.
    + by rewrite (IH i p Hnd Hi).
    + intros ->. apply Hq. by eapply list_elem_of_lookup_2.
Qed.

Lemma list_remove_length c h :
  c ∈ h → S (length (list_remove c h)) = length h.
Proof.
  induction h as [|x h IH]; intros Hin; [by apply elem_of_nil in Hin|].
  simpl. case_bool_decide; [done|].
  apply elem_of_cons in Hin as [?|Hin]; [done|]. simpl. by rewrite IH.
Qed.

Lemma list_remove_subset c h x : x ∈ list_remove c h → x ∈ h.
Proof.
  induction h as [|y h IH]; simpl; [done|].
  case_bool_decide.
  - by right.
  - intros [->|?]%elem_of_cons; [by left|right; auto].
Qed.

End Seats.

Section TrickWinner.

Lemma deck_card_rank (c : Card) :
  c ∈ _create_deck → c.1 ≠ WHITE → ∃ n, c.2 = Rank n.
Proof.
  intros Hc. vm_compute in Hc.
  repeat (apply elem_of_cons in Hc as [->|Hc]);
    try (by apply elem_of_nil in Hc); simpl; try done; eauto.
Qed.

Lemma enumerate_lookup {A} (l : list A) i x :
  (i, x) ∈ enumerate l → l !! i = Some x.
Proof.
  unfold enumerate. intros [j Hj]%list_elem_of_lookup.
  apply lookup_zip_with_Some in Hj as (a & b & [= <- <-] & Ha & Hb).
  apply lookup_seq in Ha as [-> _]. done.
Qed.

Lemma enumerate_elem_of {A} (l : list A) i x :
  l !! i = Some x → (i, x) ∈ enumerate l.
Proof.
  intros Hi. unfold enumerate. apply list_elem_of_lookup. exists i.
  apply lookup_zip_with_Some. exists i, x. split_and!; [done| |done].
  apply lookup_seq. split; [done|]. by eapply lookup_lt_Some.
Qed.

Lemma compared_cards_nonempty trick :
  forallb is_jester trick = false → compared_cards trick ≠ [].
Proof.
  intros Hall Hnil. rewrite <- not_true_iff_false in Hall. apply Hall.
  apply forallb_forall. intros c [i Hi]%list_elem_of_In%list_elem_of_lookup.
  pose proof (filter_nil_false _ _ _ Hnil (enumerate_elem_of _ _ _ Hi)) as Hf.
  simpl in Hf. by apply negb_false_iff in Hf.
Qed.

Lemma winner_loop_total t bound vs : ∀ w,
  (∀ i c, (i, c) ∈ vs → (i < bound)%nat ∧ c.1 ≠ WHITE ∧ c ∈ _create_deck) →
  (∀ wc wi, w = Some (wc, wi) →
     (wi < bound)%nat ∧ wc.1 ≠ WHITE ∧ wc ∈ _create_deck) →
  w ≠ None ∨ vs ≠ [] →
  ∃ wc wi, winner_loop (Some t) vs w = Ok (Some (wc, wi)) ∧ (wi < bound)%nat.
Proof.
  induction vs as [|[i card] vs IH]; intros w Hvs Hw Hne.
  - destruct w as [[wc wi]|]; [|by destruct Hne].
    exists wc, wi. split; [done|]. by apply (Hw wc wi).
  - assert (∀ i c, (i, c) ∈ vs →
              (i < bound)%nat ∧ c.1 ≠ WHITE ∧ c ∈ _create_deck) as Hrest
      by (intros ???; apply Hvs; by right).
    destruct (Hvs i card) as (Hi & Hcw & Hcd); [by left|].
    assert (∀ wc wi, Some (card, i) = Some (wc, wi) →
              (wi < bound)%nat ∧ wc.1 ≠ WHITE ∧ wc ∈ _create_deck) as Hnew
      by (by intros ?? [= <- <-]).
    simpl. destruct w as [[wc wi]|]; [|apply IH; auto].
    destruct (Hw wc wi eq_refl) as (Hwi & Hww & Hwd).
    destruct (bool_decide (card.1 = t.1) && bool_decide (wc.1 ≠ t.1));
      [apply IH; auto|].
    destruct (bool_decide (card.1 = wc.1)); [|apply IH; auto].
    destruct (deck_card_rank card Hcd Hcw) as [x ->].
    destruct (deck_card_rank wc Hwd Hww) as [y ->].
    simpl. destruct (bool_decide (y < x)); apply IH; auto.
Qed.

Lemma _determine_trick_winner_ok g :
  current_trick g ≠ [] →
  (length (current_trick g) ≤ length (players g))%nat →
  is_Some (trump_card g) →
  (∀ c, c ∈ current_trick g → c ∈ _create_deck) →
  ∃ i w, _determine_trick_winner g = Ok w ∧ players g !! i = Some w.
Proof.
  intros Hne Hlen [t Ht] Hdeck. unfold _determine_trick_winner.
  destruct (current_trick g) as [|lead rest] eqn:Htrick; [done|].
  rewrite <- Htrick in *.
  assert (∀ i, (i < length (current_trick g))%nat →
            ∃ w, nth_player (players g) i = Ok w ∧ players g !! i = Some w) as Hnth.
  { intros i Hi. destruct (lookup_lt_is_Some_2 (players g) i) as [w Hw]; [lia|].
    exists w. unfold nth_player. by rewrite Hw. }
  destruct (List.filter (λ ic : nat * Card, is_wizard ic.2) _)
    as [|[wi wc] ?] eqn:Hwiz.
  - destruct (forallb is_jester (current_trick g)) eqn:Hall.
    + destruct (Hnth 0%nat) as (w & -> & Hw); [rewrite Htrick; simpl; lia|]. eauto.
    + destruct (winner_loop_total t (length (current_trick g))
                  (compared_cards (current_trick g)) None)
        as (wc & wi & Hloop & Hwi).
      * intros i c Hin. split_and!.
        -- apply list_elem_of_In, filter_In in Hin as [Hin _].
           apply list_elem_of_In, enumerate_lookup in Hin.
           by eapply lookup_lt_Some.
        -- eapply compared_cards_not_white; [|by apply no_wizard_filter|exact Hin].
           by apply Forall_forall.
        -- apply list_elem_of_In, filter_In in Hin as [Hin _].
           apply list_elem_of_In, enumerate_lookup in Hin.
           apply Hdeck. by eapply list_elem_of_lookup_2.
      * done.
      * right. by apply compared_cards_nonempty.
      * rewrite Ht. unfold compared_cards in Hloop. rewrite Hloop.
        destruct (Hnth wi Hwi) as (w & -> & Hw). eauto.
  - assert ((wi, wc) ∈ enumerate (current_trick g)) as Hin.
    { apply list_elem_of_In. eapply (proj1 (filter_In _ _ _)).
      rewrite Hwiz. by left. }
    apply enumerate_lookup, lookup_lt_Some in Hin.
    destruct (Hnth wi Hin) as (w & -> & Hw). eauto.
Qed.

End TrickWinner.

Section Invariant.

Lemma inv_set_predictions pr g gh : inv g gh → inv (set_predictions pr g) gh.
Proof. intros []. by constructor. Qed.

Lemma inv_set_scores sc g gh :
  (∀ p, is_Some (scores g !! p) → is_Some (sc !! p)) →
  inv g gh → inv (set_scores sc g) gh.
Proof. intros Hsc []. constructor; try done. simpl. auto. Qed.

Lemma make_prediction_state player tricks g res g' :
  make_prediction player tricks g = (res, g') →
  g' = g ∨ ∃ pr, g' = set_predictions pr g.
Proof.
  unfold make_prediction. unfold_monad.
  repeat case_match; simplify_eq; intros [= <- <-]; eauto.
Qed.

Lemma scoring_loop_state ps : ∀ g res g',
  for_each ps score_player g = (res, g') →
  ∃ sc, g' = set_scores sc g ∧ ∀ p, is_Some (scores g !! p) → is_Some (sc !! p).
Proof.
  induction ps as [|p ps IH]; intros g res g'; simpl.
  - intros [= <- <-]. exists (scores g). by rewrite set_scores_id.
  - unfold bind.
    destruct (score_player_cases p g) as [[k ->]|[s ->]].
    + intros [= <- <-]. exists (scores g). by rewrite set_scores_id.
    + intros Hrest. apply IH in Hrest as (sc & -> & Hdom).
      exists sc. split; [done|]. intros q Hq. apply Hdom. simpl.
      destruct (decide (p = q)) as [->|];
        [rewrite lookup_insert_eq; eauto|by rewrite lookup_insert_ne].
Qed.

Lemma calculate_round_scores_state g res g' :
  calculate_round_scores g = (res, g') →
  ∃ sc, g' = set_scores sc g ∧ ∀ p, is_Some (scores g !! p) → is_Some (sc !! p).
Proof.
  unfold calculate_round_scores. unfold_monad.
  destruct (all_hands_empty g).
  - apply scoring_loop_state.
  - intros [= <- <-]. exists (scores g). by rewrite set_scores_id.
Qed.

Lemma cards_in_hands_const g r :
  (∀ p, p ∈ players g → ∃ h, hands g !! p = Some h ∧ length h = r) →
  cards_in_hands g = (length (players g) * r)%nat.
Proof.
  unfold cards_in_hands. generalize (hands g). intros m.
  induction (players g) as [|p ps IH]; intros Hall; [done|].
  simpl. destruct (Hall p) as (h & -> & Hh); [by left|].
  simpl. rewrite IH; [lia|]. intros q Hq. apply Hall. by right.
Qed.

Lemma inv_init ps g : NoDup ps → __init__ ps = Ok g → inv g ghost_start.
Proof.
  intros Hnd. unfold __init__.
  destruct (bool_decide (3 ≤ Z.of_nat (length ps))) eqn:H3; [|done].
  destruct (bool_decide (Z.of_nat (length ps) ≤ 6)) eqn:H6; [|done].
  apply bool_decide_eq_true in H3, H6. intros [= <-].
  assert (∀ p, p ∈ ps → ∃ h, hands (fresh_game ps) !! p = Some h ∧ length h = 0%nat)
    as Hhands.
  { intros p Hp. exists []. simpl. rewrite dict_from_keys_lookup.
    by rewrite bool_decide_true. }
  constructor; simpl.
  - done.
  - lia.
  - unfold max_rounds. simpl. split; [done|]. apply Z.div_pos; lia.
  - intros p. rewrite dict_from_keys_lookup. case_bool_decide; split; try done;
      try (by intros [? [=]]); eauto.
  - intros p Hp. rewrite dict_from_keys_lookup, bool_decide_true by done. eauto.
  - intros p Hp. rewrite dict_from_keys_lookup, bool_decide_true by done. eauto.
  - intros p h c. rewrite dict_from_keys_lookup. case_bool_decide; [|done].
    intros [= <-] Hc. by apply elem_of_nil in Hc.
  - intros c Hc. by apply elem_of_nil in Hc.
  - split; [done|lia].
  - intros p h. rewrite dict_from_keys_lookup. case_bool_decide; [|done].
    intros [= <-]. unfold played_this_trick. simpl. done.
  - done.
  - intros ?. lia.
  - lia.
  - rewrite (cards_in_hands_const _ 0%nat) by done. simpl. lia.
  - lia.
Qed.

Lemma max_rounds_ge g : (3 ≤ length (players g) ≤ 6)%nat → 10 ≤ max_rounds g.
Proof. intros H. unfold max_rounds. apply Z.div_le_lower_bound; lia. Qed.

Lemma max_rounds_mul g :
  (3 ≤ length (players g) ≤ 6)%nat →
  Z.of_nat (length (players g)) * max_rounds g ≤ 60.
Proof. intros H. unfold max_rounds. apply Z.mul_div_le. lia. Qed.

Lemma block_hand_length (R : list Card) r i :
  ((i + 1) * r ≤ length R)%nat → length (block_hand R r i) = r.
Proof. intros H. unfold block_hand. rewrite length_take, length_drop. lia. Qed.

Lemma block_hand_subset (R : list Card) r i c : c ∈ block_hand R r i → c ∈ R.
Proof.
  unfold block_hand. intros H. by apply (subseteq_drop (i * r)), (subseteq_take r).
Qed.

Lemma inv_start g gh sh g' :
  inv g gh → is_shuffle sh → start_round sh g = (Ok tt, g') → inv g' ghost_start.
Proof.
  intros Hinv Hsh Hrun.
  destruct Hinv as [Hnd Hroster Hround Hhdom Hwdom Hsdom Hhcards Htcards Htlen
                    Hhlen Hbefore Hturn Hdeck Htotal Hplayed].
  pose proof (max_rounds_ge g Hroster) as Hmax10.
  pose proof (max_rounds_mul g Hroster) as Hmaxmul.
  assert (length (sh _create_deck) = 60%nat) as Hlen
    by (by rewrite (Permutation_length (Hsh _create_deck))).
  assert (current_round g + 1 ≤ max_rounds g) as Hr.
  { destruct (decide (current_round g + 1 ≤ max_rounds g)) as [|Hgt]; [done|].
    rewrite start_round_limit in Hrun; [done|lia|unfold max_rounds in Hgt; lia]. }
  destruct (start_round_ok sh g Hnd) as (hs & dk & tr & cur & Heq & Hcur & Hout & Hin & Htr);
    [lia|lia|done|done|].
  rewrite Hrun in Heq. injection Heq as ->.
  fold (max_rounds g) in Htr.
  set (n := length (players g)) in *. set (r := current_round g + 1) in *.
  assert (r = current_round g + 1) as Hrdef by done. clearbody r.
  assert (Z.of_nat n * r ≤ 60) as Hnr by nia.
  assert (∀ p, p ∈ players g → ∃ h, hs !! p = Some h ∧ length h = Z.to_nat r) as Hhands.
  { intros p [i Hi]%list_elem_of_lookup. rewrite (Hin i p Hi). eexists. split; [done|].
    apply block_hand_length. rewrite length_rev, Hlen.
    apply lookup_lt_Some in Hi. fold n in Hi. nia. }
  constructor; simpl.
  - done.
  - done.
  - unfold max_rounds. simpl. fold n. unfold max_rounds in Hr. fold n in Hr. lia.
  - intros p. split.
    + intros Hp. destruct (decide (p ∈ players g)) as [|Hn]; [done|].
      rewrite (Hout p Hn) in Hp. by destruct Hp.
    + intros Hp. destruct (Hhands p Hp) as (h & -> & _). eauto.
  - intros p Hp. rewrite dict_from_keys_lookup, bool_decide_true by done. eauto.
  - done.
  - intros p h c Hp Hc.
    destruct (decide (p ∈ players g)) as [[i Hi]%list_elem_of_lookup|Hn];
      [|by rewrite (Hout p Hn) in Hp].
    rewrite (Hin i p Hi) in Hp. injection Hp as <-.
    apply block_hand_subset in Hc. apply list_elem_of_In, in_rev, list_elem_of_In in Hc.
    by rewrite (Hsh _create_deck) in Hc.
  - intros c Hc. by apply elem_of_nil in Hc.
  - split; [done|]. simpl. lia.
  - intros p h Hp.
    destruct (decide (p ∈ players g)) as [Hp'|Hn];
      [|by rewrite (Hout p Hn) in Hp].
    destruct (Hhands p Hp') as (h' & Hh' & Hl). rewrite Hp in Hh'. injection Hh' as <-.
    unfold played_this_trick. simpl. lia.
  - intros ?. lia.
  - intros _. split.
    + case_bool_decide; [by destruct Htr as (c & -> & _)|].
      destruct Htr as [-> _]. apply Hturn. lia.
    + exists (Z.to_nat (current_round g `mod` Z.of_nat n)). simpl.
      pose proof (Z.mod_pos_bound (current_round g) (Z.of_nat n)).
      split_and!; [lia|intros; lia|done|].
      rewrite Nat.add_0_r, Nat.mod_small by lia. done.
  - unfold max_rounds. simpl. change (60 `div` _) with (max_rounds g).
    case_bool_decide as Hlt.
    + destruct Htr as (c & _ & Hdk). rewrite bool_decide_true by lia.
      apply (f_equal length) in Hdk. rewrite length_app, length_take, Hlen in Hdk.
      simpl in Hdk. lia.
    + destruct Htr as [_ ->]. rewrite bool_decide_false by lia.
      rewrite length_take, Hlen. lia.
  - rewrite (cards_in_hands_const _ (Z.to_nat r)) by done. simpl. fold n. lia.
  - lia.
Qed.

Lemma play_card_cases player card g :
  (∃ e, play_card player card g = (Raise e, g)) ∨
  (∃ hand, current_player g = Some player ∧ hands g !! player = Some hand ∧
     card ∈ hand ∧
     play_card player card g = finish_play player (after_play player card hand g)).
Proof.
  destruct (decide (current_player g = Some player)) as [Hcur|Hcur].
  - destruct (hands g !! player) as [hand|] eqn:Hhand.
    + destruct (decide (card ∈ hand)) as [Hin|Hin].
      * rewrite (play_card_validated _ _ _ _ Hcur Hhand Hin).
        destruct (validate_follow_suit_outcome (current_trick g) hand card g)
          as [-> | ->]; [right; by exists hand|left; eauto].
      * left. unfold play_card. unfold_monad.
        rewrite bool_decide_true, Hhand, bool_decide_false by done. eauto.
    + left. unfold play_card. unfold_monad.
      rewrite bool_decide_true, Hhand by done. eauto.
  - left. unfold play_card. unfold_monad.
    rewrite bool_decide_false by done. eauto.
Qed.

Lemma finish_play_complete p g w won :
  length (current_trick g) = length (players g) →
  _determine_trick_winner g = Ok w →
  tricks_won g !! w = Some won →
  finish_play p g
    = (Ok tt, set_current_player (Some w)
                (set_current_trick []
                   (set_tricks_won (<[w := won + 1]> (tricks_won g)) g))).
Proof.
  intros Hlen Hw Hwon. unfold finish_play. unfold_monad.
  rewrite bool_decide_true by done. rewrite Hw. simpl. by rewrite Hwon.
Qed.

Lemma finish_play_next p g i next :
  length (current_trick g) ≠ length (players g) →
  list_index p (players g) = Some i →
  players g !! Z.to_nat ((Z.of_nat i + 1) `mod` Z.of_nat (length (players g)))
    = Some next →
  finish_play p g = (Ok tt, set_current_player (Some next) g).
Proof.
  intros Hlen Hi Hnext. unfold finish_play. unfold_monad.
  rewrite bool_decide_false by done. rewrite Hi.
  rewrite (list_getitem_ok _ _ next); [done| |done].
  apply Z.mod_pos_bound.
  destruct (players g); [done|simpl; lia].
Qed.

Lemma cards_in_hands_insert ps (m : gmap string (list Card)) p h h' :
  NoDup ps → p ∈ ps → m !! p = Some h → S (length h') = length h →
  S (sum_list (map (λ q, length (default [] (<[p := h']> m !! q))) ps))
  = sum_list (map (λ q, length (default [] (m !! q))) ps).
Proof.
  intros Hnd Hp Hm Hlen. induction ps as [|q ps IH]; [by apply elem_of_nil in Hp|].
  apply NoDup_cons in Hnd as [Hq Hnd]. simpl.
  destruct (decide (q = p)) as [->|Hne].
  - rewrite lookup_insert_eq, Hm. simpl.
    assert (map (λ q, length (default [] (<[p := h']> m !! q))) ps
            = map (λ q, length (default [] (m !! q))) ps) as ->; [|lia].
    apply map_ext_in. intros q Hin%list_elem_of_In.
    rewrite lookup_insert_ne; [done|]. by intros ->.
  - rewrite lookup_insert_ne by done.
    apply elem_of_cons in Hp as [->|Hp]; [done|].
    rewrite <- (IH Hnd Hp). lia.
Qed.

Lemma played_this_trick_snoc d pb cp p q :
  q ≠ p →
  played_this_trick (mkGhost d (pb ++ [p]) cp) q = played_this_trick (mkGhost d pb cp) q.
Proof.
  intros Hne. unfold played_this_trick. simpl.
  apply (f_equal (λ b : bool, if b then 1 else 0)).
  apply bool_decide_ext. rewrite elem_of_app, list_elem_of_singleton.
  split; [intros [?|?]; [done|congruence]|by left].
Qed.

Lemma inv_play g gh p c res g' :
  inv g gh → play_card p c g = (res, g') →
  (∃ e, res = Raise e ∧ g' = g) ∨ (res = Ok tt ∧ inv g' (ghost_play g p gh)).
Proof.
  intros Hinv Hrun.
  destruct (play_card_cases p c g) as [[e He]|(hand & Hcur & Hhand & Hc & Hplay)].
  { left. exists e. rewrite He in Hrun. by injection Hrun as <- <-. }
  right. rewrite Hplay in Hrun. clear Hplay.
  destruct Hinv as [Hnd Hroster Hround Hhdom Hwdom Hsdom Hhcards Htcards Htlen
                    Hhlen Hbefore Hturn Hdeck Htotal Hplayed].
  destruct gh as [d pb cp]. simpl in *.
  destruct Htlen as [Hk Hkn].
  set (n := length (players g)) in *.
  assert (p ∈ players g) as Hpin by (apply Hhdom; eauto).
  assert (1 ≤ current_round g) as Hr1.
  { destruct (decide (current_round g = 0)) as [H0|]; [|lia].
    destruct (Hbefore H0) as [Hnone _]. congruence. }
  destruct (Hturn Hr1) as (Htrump & l & Hl & Hpb & _ & Hseat).
  rewrite Hcur in Hseat. symmetry in Hseat.
  assert (p ∉ pb) as Hpnotin.
  { intros [j Hj]%list_elem_of_lookup.
    pose proof (lookup_lt_Some _ _ _ Hj) as Hjk.
    rewrite (Hpb j Hjk) in Hj.
    pose proof (NoDup_lookup _ _ _ _ Hnd Hj Hseat) as Heq.
    apply mod_seat_inj in Heq; lia. }
  pose proof (Hhlen p hand Hhand) as Hhandlen.
  unfold played_this_trick in Hhandlen. simpl in Hhandlen.
  rewrite bool_decide_false in Hhandlen by done.
  pose proof (list_remove_length c hand Hc) as Hremove.
  set (g1 := after_play p c hand g) in *.
  assert (Z.of_nat (cards_in_hands g1) = Z.of_nat (cards_in_hands g) - 1) as Htotal1.
  { unfold cards_in_hands. subst g1. simpl.
    pose proof (cards_in_hands_insert (players g) (hands g) p hand
                  (list_remove c hand) Hnd Hpin Hhand Hremove) as Hins.
    lia. }
  assert (∀ q, is_Some (hands g1 !! q) ↔ q ∈ players g) as Hhdom1.
  { intros q. subst g1. simpl. rewrite lookup_insert_is_Some', Hhdom.
    split; [intros [<-|?]; done|by right]. }
  assert (∀ q h x, hands g1 !! q = Some h → x ∈ h → x ∈ _create_deck) as Hhcards1.
  { intros q h x. subst g1. simpl. destruct (decide (p = q)) as [->|Hne].
    - rewrite lookup_insert_eq. intros [= <-] Hx.
      apply (Hhcards q hand); [done|]. by eapply list_remove_subset.
    - rewrite lookup_insert_ne by done. apply Hhcards. }
  assert (∀ x, x ∈ current_trick g1 → x ∈ _create_deck) as Htcards1.
  { intros x. subst g1. simpl. rewrite elem_of_app, list_elem_of_singleton.
    intros [?| ->]; [auto|by eapply Hhcards]. }
  unfold ghost_play. simpl. fold n.
  destruct (decide (S (length (current_trick g)) = n)) as [Hfull|Hpart].
  - (* the trick is complete *)
    rewrite bool_decide_true by done.
    destruct (_determine_trick_winner_ok g1) as (wi & w & Hw & Hwi).
    { subst g1. simpl. by destruct (current_trick g). }
    { subst g1. simpl. rewrite length_app. simpl. fold n. lia. }
    { done. }
    { done. }
    assert (w ∈ players g) as Hwin by (by eapply list_elem_of_lookup_2).
    destruct (Hwdom w Hwin) as [won Hwon].
    rewrite (finish_play_complete p g1 w won) in Hrun;
      [|subst g1; simpl; rewrite length_app; simpl; fold n; lia|done|done].
    injection Hrun as <- <-. split; [done|].
    constructor; simpl; fold n.
    + done.
    + done.
    + done.
    + done.
    + intros q Hq. rewrite lookup_insert_is_Some'. auto.
    + done.
    + done.
    + intros x Hx. by apply elem_of_nil in Hx.
    + split; [done|simpl; lia].
    + intros q h Hq. unfold played_this_trick. simpl.
      destruct (decide (p = q)) as [->|Hne].
      * rewrite lookup_insert_eq in Hq. injection Hq as <-. lia.
      * rewrite lookup_insert_ne in Hq by done.
        assert (q ∈ players g) as [i Hi]%list_elem_of_lookup by (apply Hhdom; eauto).
        destruct (mod_seat_cover n l i) as (j & Hj & Hji);
          [done|by eapply lookup_lt_Some|].
        assert (j ≠ length pb) as Hjk.
        { intros ->. rewrite Hji in Hseat. congruence. }
        assert (q ∈ pb) as Hqpb.
        { apply list_elem_of_lookup. exists j. rewrite Hpb by lia.
          by rewrite Hji. }
        rewrite (Hhlen q h Hq). unfold played_this_trick. simpl.
        rewrite bool_decide_true by done. lia.
    + lia.
    + intros _. split; [done|]. exists wi.
      pose proof (lookup_lt_Some _ _ _ Hwi) as Hwin'. fold n in Hwin'.
      split_and!; [done|simpl; intros; lia|done|].
      simpl. rewrite Nat.add_0_r, Nat.mod_small by done. done.
    + done.
    + change (cards_in_hands _) with (cards_in_hands g1).
      rewrite Htotal1, Htotal. lia.
    + lia.
  - (* the trick goes on *)
    rewrite bool_decide_false by done.
    pose proof (list_index_lookup _ _ _ Hnd Hseat) as Hidx.
    destruct (lookup_lt_is_Some_2 (players g) ((l + S (length pb)) `mod` n)%nat)
      as [next Hnext]; [apply Nat.mod_upper_bound; lia|].
    rewrite (finish_play_next p g1 ((l + length pb) `mod` n)%nat next) in Hrun.
    2:{ subst g1. simpl. rewrite length_app. simpl. fold n. lia. }
    2:{ done. }
    2:{ subst g1. simpl. fold n. rewrite mod_seat_next by lia.
        by replace (l + length pb + 1)%nat with (l + S (length pb))%nat by lia. }
    injection Hrun as <- <-. split; [done|].
    constructor; simpl; fold n.
    + done.
    + done.
    + done.
    + done.
    + done.
    + done.
    + done.
    + done.
    + rewrite !length_app. simpl. lia.
    + intros q h Hq. destruct (decide (p = q)) as [->|Hne].
      * rewrite lookup_insert_eq in Hq. injection Hq as <-.
        unfold played_this_trick. simpl.
        rewrite bool_decide_true by (apply elem_of_app; right; by left). lia.
      * rewrite lookup_insert_ne in Hq by done.
        rewrite played_this_trick_snoc by done. by apply Hhlen.
    + lia.
    + intros _. split; [done|]. exists l. rewrite length_app. simpl.
      split_and!; [done| |done|].
      * intros j Hj. destruct (decide (j = length pb)) as [->|Hne].
        -- rewrite lookup_app_r, Nat.sub_diag by lia. simpl. by rewrite Hseat.
        -- rewrite lookup_app_l by lia. apply Hpb. lia.
      * replace (l + (length pb + 1))%nat with (l + S (length pb))%nat by lia.
        by rewrite Hnext.
    + done.
    + change (cards_in_hands _) with (cards_in_hands g1).
      rewrite Htotal1, Htotal, length_app. simpl. lia.
    + rewrite length_app. simpl. lia.
Qed.

(** Every reachable state satisfies the invariant. *)
Lemma reach_inv g gh : reach g gh → inv g gh.
Proof.
  induction 1 as [ps g Hnd Hinit
                 |g gh sh g' _ IH Hsh Hrun
                 |g gh p t res g' _ IH Hrun
                 |g gh p c g' _ IH Hrun
                 |g gh p c e g' _ IH Hrun
                 |g gh res g' _ IH Hrun].
  - by eapply inv_init.
  - by eapply inv_start.
  - apply make_prediction_state in Hrun as [->|[pr ->]];
      [done|by apply inv_set_predictions].
  - apply (inv_play _ _ _ _ _ _ IH) in Hrun as [(e & [=] & _)|[_ Hinv]]. done.
  - apply (inv_play _ _ _ _ _ _ IH) in Hrun as [(e' & _ & ->)|[[=] _]]. done.
  - apply calculate_round_scores_state in Hrun as (sc & -> & Hdom).
    by apply inv_set_scores.
Qed.

(** In a reachable state a failed [play_card] leaves the state as it was. *)
Lemma play_card_error_state g gh p c e g' :
  reach g gh → play_card p c g = (Raise e, g') → g' = g.
Proof.
  intros Hreach Hrun.
  by apply (inv_play _ _ _ _ _ _ (reach_inv _ _ Hreach)) in Hrun
    as [(e' & _ & ->)|[[=] _]].
Qed.

(** The card count of a reachable state: 60 before the last round, and 61
    in the last round, where the trump card of the round before is still
    in place next to a complete fresh deck. *)
Lemma card_count_reach g gh :
  reach g gh →
  card_count g gh
    = if bool_decide (current_round g = max_rounds g) then 61%nat else 60%nat.
Proof.
  intros [Hnd Hroster Hround Hhdom Hwdom Hsdom Hhcards Htcards Htlen
          Hhlen Hbefore Hturn Hdeck Htotal Hplayed]%reach_inv.
  pose proof (max_rounds_ge g Hroster) as Hmax10.
  unfold card_count. rewrite Hplayed.
  destruct (decide (current_round g = 0)) as [H0|H0].
  - destruct (Hbefore H0) as (_ & Hpb & ->).
    case_bool_decide; [lia|]. case_bool_decide; [lia|].
    rewrite Hpb in *. simpl in *. nia.
  - destruct (Hturn ltac:(lia)) as [[t ->] _].
    repeat case_bool_decide; try lia; nia.
Qed.

End Invariant.

(** ** Properties of whole runs *)

Section Runs.

Lemma is_shuffle_keep_order : is_shuffle keep_order.
Proof. intros d. done. Qed.

Lemma reach_fresh_roster : reach (fresh_game roster) ghost_start.
Proof.
  apply (reach_init roster); [|done].
  apply (bool_decide_unpack _). vm_compute. exact I.
Qed.

Lemma reach_round_one : reach (game_in_round 1) ghost_start.
Proof.
  eapply reach_start; [exact reach_fresh_roster|exact is_shuffle_keep_order|].
  vm_compute. reflexivity.
Qed.

Lemma reach_play_ok g gh p c :
  reach g gh → (play_card p c g).1 = Ok tt →
  reach (play_card p c g).2 (ghost_play g p gh).
Proof.
  intros Hg Hok. apply (reach_play g gh p c); [done|].
  destruct (play_card p c g) as [[[]|e] g']; [done|discriminate Hok].
Qed.

Lemma reach_predict_any g gh p t :
  reach g gh → reach (make_prediction p t g).2 gh.
Proof.
  intros Hg. apply (reach_predict g gh p t (make_prediction p t g).1); [done|].
  by destruct (make_prediction p t g).
Qed.

Lemma reach_mid_trick : reach mid_trick_game (mkGhost 0 ["A"] 1).
Proof.
  pose proof (reach_play_ok _ _ "A" (WHITE, JESTER) reach_round_one) as H.
  apply H. vm_compute. reflexivity.
Qed.

Lemma reach_played_round_one : reach played_round_one (mkGhost 1 [] 3).
Proof.
  pose proof reach_round_one as H0.
  pose proof (reach_predict_any _ _ "A" 1 H0) as H1.
  pose proof (reach_predict_any _ _ "B" 0 H1) as H2.
  pose proof (reach_predict_any _ _ "C" 0 H2) as H3.
  pose proof (reach_play_ok predicted_round_one _ "A" (WHITE, JESTER) H3
                ltac:(vm_compute; reflexivity)) as H4.
  pose proof (reach_play_ok after_first_play _ "B" (WHITE, WIZARD) H4
                ltac:(vm_compute; reflexivity)) as H5.
  pose proof (reach_play_ok after_second_play _ "C" (WHITE, JESTER) H5
                ltac:(vm_compute; reflexivity)) as H6.
  exact H6.
Qed.

(** Before the last round a successful [start_round] is always possible. *)
Lemma start_round_succeeds sh g gh :
  reach g gh → is_shuffle sh → current_round g < max_rounds g →
  ∃ g', start_round sh g = (Ok tt, g') ∧
        current_round g' = current_round g + 1 ∧ players g' = players g.
Proof.
  intros [Hnd Hroster Hround _ _ _ _ _ _ _ _ _ _ _ _]%reach_inv Hsh Hlt.
  destruct (start_round_ok sh g Hnd) as (hs & dk & tr & cur & -> & _);
    [lia|lia|unfold max_rounds in Hlt; lia
    |by rewrite (Permutation_length (Hsh _create_deck))|].
  eexists. done.
Qed.

(** Before the last round a successful [start_round] draws exactly one
    card, the trump card, from what dealing left of the deck. *)
Lemma start_round_draws_trump sh g gh g' :
  reach g gh → is_shuffle sh → start_round sh g = (Ok tt, g') →
  current_round g' < max_rounds g' →
  ∃ c, trump_card g' = Some c ∧
       deck g' ++ [c]
         = take (60 - length (players g') * Z.to_nat (current_round g'))
                (sh _create_deck).
Proof.
  intros [Hnd Hroster Hround _ _ _ _ _ _ _ _ _ _ _ _]%reach_inv Hsh Hrun Hlt.
  assert (current_round g + 1 ≤ max_rounds g) as Hr.
  { destruct (decide (current_round g + 1 ≤ max_rounds g)) as [|Hgt]; [done|].
    rewrite start_round_limit in Hrun; [done|lia|unfold max_rounds in Hgt; lia]. }
  destruct (start_round_ok sh g Hnd) as (hs & dk & tr & cur & Heq & _ & _ & _ & Htr);
    [lia|lia|done|by rewrite (Permutation_length (Hsh _create_deck))|].
  rewrite Hrun in Heq. injection Heq as ->.
  unfold max_rounds in Hlt. simpl in *.
  rewrite bool_decide_true in Htr by done.
  destruct Htr as (c & -> & Hdk). exists c. split; [done|].
  rewrite Hdk. f_equal. lia.
Qed.

End Runs.

(** ** Trick winners and the trick leader *)

(** C1 fails on the code: in round 2 of the three-player game the trick is
    led by B (seat 1).  B plays a WIZARD, C and A play JESTERs, so the
    winning position is 0 and the player who played it is B; [play_card]
    credits the trick to A, the player in seat 0, and makes A the current
    player. *)
Theorem play_card_credits_roster_seat :
  let g := game_in_round 2 in
  let g1 := (play_card "B" (WHITE, WIZARD) g).2 in
  let g2 := (play_card "C" (WHITE, JESTER) g1).2 in
  let g3 := (play_card "A" (WHITE, JESTER) g2).2 in
  players g = ["A"; "B"; "C"] ∧ current_player g = Some "B" ∧
  current_trick g = [] ∧
  play_card "B" (WHITE, WIZARD) g = (Ok tt, g1) ∧
  play_card "C" (WHITE, JESTER) g1 = (Ok tt, g2) ∧
  play_card "A" (WHITE, JESTER) g2 = (Ok tt, g3) ∧
  seat_from_leader (players g) 1 0 = Some "B" ∧
  current_player g3 = Some "A" ∧
  tricks_won g3 !! "A" = Some 1 ∧ tricks_won g3 !! "B" = Some 0.
Proof. vm_compute. repeat split; reflexivity. Qed.

(** ** The trump card of the last round *)

(** C2 fails on the code: the twentieth [start_round] of the three-player
    game opens the last round, and the trump card is still the card drawn
    for round 19. *)
Theorem final_round_keeps_old_trump :
  ∃ g, start_rounds 20 keep_order (fresh_game roster) = (Ok tt, g) ∧
       current_round g = max_rounds g ∧
       trump_card g = trump_card (game_in_round 19) ∧
       trump_card g = Some (BLUE, Rank 3).
Proof.
  exists (game_in_round 20). vm_compute. repeat split; reflexivity.
Qed.

(** ** Failed calls *)

(** C3 fails on the code: a [start_round] past the last round raises with
    the round counter already advanced, and [calculate_round_scores] that
    meets a missing prediction raises after it has rewritten the scores of
    the players before it. *)
Theorem failed_calls_change_state :
  (∃ g', start_round keep_order (game_in_round 20)
           = (Raise (AssertionError "Game cannot exceed 20 rounds"), g') ∧
         current_round (game_in_round 20) = 20 ∧ current_round g' = 21) ∧
  (∃ g', calculate_round_scores half_predicted_game = (Raise (KeyError "B"), g') ∧
         scores half_predicted_game !! "A" = Some 0 ∧
         scores g' !! "A" = Some 20).
Proof.
  split.
  - exists (start_round keep_order (game_in_round 20)).2.
    vm_compute. repeat split; reflexivity.
  - exists (calculate_round_scores half_predicted_game).2.
    vm_compute. repeat split; reflexivity.
Qed.

(** ** The deck-size count *)

(** C7 fails on the code in the last round: a fresh deck has 60 cards, but
    after the twentieth [start_round] of the three-player game the 60 cards
    are all in the hands and the trump card of round 19 is still present,
    so the count is 61. *)
Theorem final_round_counts_61_cards :
  length _create_deck = 60%nat ∧
  current_round (game_in_round 20) = max_rounds (game_in_round 20) ∧
  length (deck (game_in_round 20)) = 0%nat ∧
  cards_in_hands (game_in_round 20) = 60%nat ∧
  trump_card (game_in_round 20) = Some (BLUE, Rank 3) ∧
  card_count (game_in_round 20) ghost_start = 61%nat.
Proof. vm_compute. repeat split; reflexivity. Qed.

(** ** Hand lengths during a round *)

(** C8 as stated fails: in round 1, after A has played and before the trick
    is resolved, A holds no card while round minus resolved tricks is 1. *)
Lemma hand_length_claim_fails : ¬ hand_length_claim.
Proof.
  intros H.
  specialize (H mid_trick_game _ reach_mid_trick "A" [] ltac:(vm_compute; reflexivity)).
  vm_compute in H. discriminate H.
Qed.

(** C8, amended: in every reachable state, as many players have played to
    the unfinished trick as it holds cards, and every roster player's hand
    has length round number minus resolved tricks, minus one for a player
    who has already played to the unfinished trick. *)
Theorem hand_length_invariant (g : Game) (gh : Ghost) :
  reach g gh →
  length (played_by gh) = length (current_trick g) ∧
  ∀ p, p ∈ players g →
    ∃ h, hands g !! p = Some h ∧
      Z.of_nat (length h)
        = current_round g - Z.of_nat (tricks_done gh) - played_this_trick gh p.
Proof.
  intros [_ _ _ Hhdom _ _ _ _ [Hk _] Hhlen _ _ _ _ _]%reach_inv.
  split; [done|]. intros p Hp.
  destruct (proj2 (Hhdom p) Hp) as [h Hh]. exists h. split; [done|].
  by apply Hhlen.
Qed.

Lemma hand_length_invariant_witness :
  length (played_by (mkGhost 0 ["A"] 1)) = length (current_trick mid_trick_game) ∧
  ∀ p, p ∈ players mid_trick_game →
    ∃ h, hands mid_trick_game !! p = Some h ∧
      Z.of_nat (length h)
        = current_round mid_trick_game - Z.of_nat 0
          - played_this_trick (mkGhost 0 ["A"] 1) p.
Proof. exact (hand_length_invariant _ _ reach_mid_trick). Defined.

(** ** Scoring a finished round *)

(** C6: in a reachable state where every hand is empty and every roster
    player has a recorded prediction, [calculate_round_scores] succeeds and
    each player's score grows by [20 + 10 * won] when the prediction equals
    the tricks won, and otherwise drops by [10 * |predicted - won|], with no
    lower bound applied. *)
Theorem calculate_round_scores_spec (g : Game) (gh : Ghost) :
  reach g gh →
  all_hands_empty g = true →
  Forall (λ p, is_Some (predictions g !! p)) (players g) →
  ∃ g', calculate_round_scores g = (Ok tt, g') ∧
    ∀ p, p ∈ players g →
      ∃ predicted won score,
        predictions g !! p = Some predicted ∧ tricks_won g !! p = Some won ∧
        scores g !! p = Some score ∧
        scores g' !! p
          = Some (if bool_decide (predicted = won)
                  then score + (20 + 10 * won)
                  else score - 10 * Z.abs (predicted - won)).
Proof.
  intros [Hnd _ _ _ Hwdom Hsdom _ _ _ _ _ _ _ _ _]%reach_inv Hempty Hpred.
  rewrite Forall_forall in Hpred.
  destruct (scoring_loop_ok (players g) g Hnd) as (sc & Hrun & _ & Hin).
  { apply Forall_forall. intros p Hp. split_and!; auto. }
  exists (set_scores sc g). split.
  - unfold calculate_round_scores. unfold_monad. by rewrite Hempty.
  - intros p Hp.
    destruct (Hpred p Hp) as [pr Hpr], (Hwdom p Hp) as [w Hw], (Hsdom p Hp) as [s Hs].
    exists pr, w, s. split_and!; [done..|].
    simpl. rewrite (Hin p pr w s Hp Hpr Hw Hs). unfold round_delta.
    case_bool_decide; [done|]. by rewrite Z.add_opp_r.
Qed.

Lemma calculate_round_scores_spec_witness :
  ∃ g', calculate_round_scores played_round_one = (Ok tt, g') ∧
    ∀ p, p ∈ players played_round_one →
      ∃ predicted won score,
        predictions played_round_one !! p = Some predicted ∧
        tricks_won played_round_one !! p = Some won ∧
        scores played_round_one !! p = Some score ∧
        scores g' !! p
          = Some (if bool_decide (predicted = won)
                  then score + (20 + 10 * won)
                  else score - 10 * Z.abs (predicted - won)).
Proof.
  apply (calculate_round_scores_spec _ _ reach_played_round_one).
  - vm_compute. reflexivity.
  - apply (bool_decide_unpack _). vm_compute. exact I.
Defined.

(** A wrong prediction takes a score of 0 below zero. *)
Lemma scores_go_negative :
  scores played_round_one !! "A" = Some 0 ∧
  scores (calculate_round_scores played_round_one).2 !! "A" = Some (-10).
Proof. vm_compute. split; reflexivity. Qed.

(** * Further properties of the engine *)

(** ** Shapes of a play *)

Lemma finish_play_cases player g res g' :
  finish_play player g = (res, g') →
  (∃ e, res = Raise e ∧ g' = g) ∨
  (res = Ok tt ∧ length (current_trick g) = length (players g) ∧
   ∃ w won, _determine_trick_winner g = Ok w ∧ tricks_won g !! w = Some won ∧
     g' = set_current_player (Some w)
            (set_current_trick []
               (set_tricks_won (<[w := won + 1]> (tricks_won g)) g))) ∨
  (res = Ok tt ∧ length (current_trick g) ≠ length (players g) ∧
   ∃ i next, list_index player (players g) = Some i ∧
     players g !! Z.to_nat ((Z.of_nat i + 1) `mod` Z.of_nat (length (players g)))
       = Some next ∧
     g' = set_current_player (Some next) g).
Proof.
  unfold finish_play. unfold_monad. case_bool_decide as Hlen.
  - destruct (_determine_trick_winner g) as [w|e] eqn:Hw; simpl.
    + destruct (tricks_won g !! w) as [won|] eqn:Hwon; simpl.
      * intros [= <- <-]. right. left. split_and!; [done..|]. by exists w, won.
      * intros [= <- <-]. left. eauto.
    + intros [= <- <-]. left. eauto.
  - destruct (list_index player (players g)) as [i|] eqn:Hi; simpl.
    + unfold list_getitem. unfold_monad.
      assert (0 < Z.of_nat (length (players g))) as Hn.
      { destruct (players g); [done|simpl; lia]. }
      pose proof (Z.mod_pos_bound (Z.of_nat i + 1) _ Hn) as Hmod.
      rewrite (bool_decide_true (0 ≤ _ `mod` _)) by lia.
      rewrite (bool_decide_true (0 ≤ _ `mod` _)) by lia.
      destruct (players g !! _) as [next|] eqn:Hnext; simpl.
      * intros [= <- <-]. right. right. split_and!; [done..|]. by exists i, next.
      * intros [= <- <-]. left. eauto.
    + intros [= <- <-]. left. eauto.
Qed.

(** A successful [play_card], in any state. *)
Lemma play_card_ok_cases player card g g' :
  play_card player card g = (Ok tt, g') →
  ∃ hand, current_player g = Some player ∧ hands g !! player = Some hand ∧
    card ∈ hand ∧
    (validate_follow_suit (current_trick g) hand card g).1 = Ok tt ∧
    finish_play player (after_play player card hand g) = (Ok tt, g').
Proof.
  intros Hrun.
  destruct (play_card_cases player card g) as [[e He]|(hand & Hcur & Hhand & Hin & Heq)];
    [congruence|].
  exists hand. split_and!; [done..| |congruence].
  rewrite (play_card_validated _ _ _ _ Hcur Hhand Hin) in Hrun.
  destruct (validate_follow_suit _ _ _ _).1 as [[]|e]; [done|congruence].
Qed.

(** ** Starting a round, in any state *)

Lemma set_deck_id g : set_deck (deck g) g = g.
Proof. by destruct g. Qed.

Lemma pop_many_frame k : ∀ g res g',
  pop_many k g = (res, g') → ∃ dk, g' = set_deck dk g.
Proof.
  induction k as [|k IH]; intros g res g'; simpl.
  - intros [= <- <-]. exists (deck g). by rewrite set_deck_id.
  - unfold_monad. destruct (pop (deck g)) as [[c d]|].
    + destruct (pop_many k (set_deck d g)) as [[cs|e] g1] eqn:Hk;
        intros [= <- <-]; apply IH in Hk as [dk ->]; by exists dk.
    + intros [= <- <-]. exists (deck g). by rewrite set_deck_id.
Qed.

Lemma deal_loop_frame ps : ∀ g res g',
  for_each ps deal_body g = (res, g') →
  ∃ hs dk, g' = set_hands hs (set_deck dk g).
Proof.
  induction ps as [|p ps IH]; intros g res g'; simpl.
  - intros [= <- <-]. exists (hands g), (deck g). by destruct g.
  - unfold bind at 1. unfold deal_body. unfold_monad.
    destruct (pop_many _ g) as [[hand|e] g1] eqn:Hpop.
    + apply pop_many_frame in Hpop as [dk ->]. simpl.
      intros Hrest. apply IH in Hrest as (hs & dk' & ->). by exists hs, dk'.
    + apply pop_many_frame in Hpop as [dk ->].
      intros [= <- <-]. exists (hands g), dk. by destruct g.
Qed.

Lemma _deal_cards_frame sh g res g' :
  _deal_cards sh g = (res, g') → ∃ hs dk, g' = set_hands hs (set_deck dk g).
Proof.
  unfold _deal_cards. unfold_monad. intros H.
  apply deal_loop_frame in H as (hs & dk & ->). by exists hs, dk.
Qed.

Lemma list_getitem_inv {A} (l : list A) (i : Z) g x g' :
  0 ≤ i → list_getitem l i g = (Ok x, g') → l !! Z.to_nat i = Some x ∧ g' = g.
Proof.
  intros Hi. unfold list_getitem. unfold_monad.
  rewrite (bool_decide_true (0 ≤ i)) by done.
  rewrite (bool_decide_true (0 ≤ i)) by done.
  destruct (l !! Z.to_nat i); intros [= <- <-]; done.
Qed.

(** The state after a successful [start_round], for any state and shuffle. *)
Lemma start_round_shape (shuffle : list Card → list Card) (g g' : Game) :
  start_round shuffle g = (Ok tt, g') →
  ∃ hs dk tr p,
    g' = mkGame (players g) (current_round g + 1) tr (Some p) (scores g) ∅ hs
                (dict_from_keys (players g) 0) [] dk ∧
    current_round g + 1 ≤ 60 `div` Z.of_nat (length (players g)) ∧
    players g
      !! Z.to_nat (current_round g `mod` Z.of_nat (length (players g))) = Some p.
Proof.
  unfold start_round.
  unfold bind at 1. unfold modify at 1.
  unfold bind at 1. unfold get at 1.
  unfold bind at 1. unfold floordiv. simpl.
  case_bool_decide as Hn; [done|]. unfold ret at 1.
  unfold bind at 1. unfold get at 1. simpl.
  unfold bind at 1. unfold assert_.
  case_bool_decide as Hr; [|done]. unfold ret at 1.
  do 5 (unfold bind at 1; unfold modify at 1). simpl.
  unfold bind at 1.
  destruct (_deal_cards shuffle _) as [[[]|e] g1] eqn:Hdeal; [|done].
  apply _deal_cards_frame in Hdeal as (hs & dk & ->).
  unfold bind at 1.
  set (g2 := set_hands hs _).
  assert (∃ tr dk', (if bool_decide (current_round g + 1 < 60 `div` Z.of_nat (length (players g)))
           then d ←' get deck ;;
                (if bool_decide (d ≠ [])
                 then c ←' deck_pop ;; modify (set_trump_card (Some c))
                 else modify (set_trump_card None))
           else ret ()) g2 = (Ok tt, set_trump_card tr (set_deck dk' g2))) as (tr & dk' & ->).
  { case_bool_decide.
    - unfold_monad. case_bool_decide.
      + destruct (pop (deck g2)) as [[c d]|] eqn:Hpop.
        * by exists (Some c), d.
        * destruct (deck g2) as [|c0 d0] eqn:Hd using rev_ind; [done|].
          by rewrite pop_snoc in Hpop.
      + exists None, (deck g2). by rewrite set_deck_id.
    - exists (trump_card g2), (deck g2). by destruct g2. }
  unfold bind at 1. unfold get at 1. simpl.
  unfold bind.
  destruct (list_getitem _ _ _) as [[p|e] g3] eqn:Hget; [|done].
  apply list_getitem_inv in Hget as [Hp ->];
    [|apply Z.mod_pos_bound; lia].
  unfold modify. intros [= <-]. simpl.
  replace (current_round g + 1 - 1) with (current_round g) in Hp by lia.
  exists hs, dk', tr, p. done.
Qed.

(** X1: a successful [start_round], in any state and for any shuffle, moves
    to the next round, keeps the roster and the scores, clears predictions
    and the trick, and sets every roster player's tricks to 0. *)
Theorem start_round_resets_round_state (shuffle : list Card → list Card)
    (g g' : Game) :
  start_round shuffle g = (Ok tt, g') →
  players g' = players g ∧
  current_round g' = current_round g + 1 ∧
  current_round g' ≤ 60 `div` Z.of_nat (length (players g)) ∧
  scores g' = scores g ∧
  predictions g' = ∅ ∧
  current_trick g' = [] ∧
  (∀ p, tricks_won g' !! p = if bool_decide (p ∈ players g) then Some 0 else None).
Proof.
  intros (hs & dk & tr & p & -> & Hr & Hp)%start_round_shape. simpl.
  split_and!; try done. intros q. apply dict_from_keys_lookup.
Qed.

(** X2: the player who opens round [r] sits in seat [(r - 1) mod n]. *)
Theorem start_round_opening_seat (shuffle : list Card → list Card)
    (g g' : Game) :
  start_round shuffle g = (Ok tt, g') →
  current_player g'
    = players g' !! Z.to_nat ((current_round g' - 1)
                                `mod` Z.of_nat (length (players g'))).
Proof.
  intros (hs & dk & tr & p & -> & Hr & Hp)%start_round_shape. simpl.
  by replace (current_round g + 1 - 1) with (current_round g) by lia.
Qed.

(** ** Predictions and plays *)

Lemma make_prediction_cases player tricks g :
  (∃ e, make_prediction player tricks g = (Raise e, g)) ∨
  (player ∈ players g ∧ 0 ≤ tricks ≤ current_round g ∧
   predictions g !! player = None ∧
   make_prediction player tricks g
     = (Ok tt, set_predictions (<[player := tricks]> (predictions g)) g)).
Proof.
  unfold make_prediction. unfold_monad.
  destruct (decide (player ∈ players g)) as [Hin|Hin];
    [rewrite bool_decide_true by done|rewrite bool_decide_false by done; eauto].
  simpl.
  destruct (decide (0 ≤ tricks)) as [H0|H0];
    [rewrite (bool_decide_true (0 ≤ tricks)) by done
    |rewrite (bool_decide_false (0 ≤ tricks)) by done; eauto].
  destruct (decide (tricks ≤ current_round g)) as [Hr|Hr];
    [rewrite (bool_decide_true (tricks ≤ _)) by done
    |rewrite (bool_decide_false (tricks ≤ _)) by done; eauto].
  simpl.
  destruct (decide (predictions g !! player = None)) as [Hp|Hp];
    [rewrite bool_decide_true by done|rewrite bool_decide_false by done; eauto].
  right. simpl. split_and!; done.
Qed.

(** X3: [make_prediction] succeeds exactly for a roster player, a count
    between 0 and the round number, and no earlier prediction; then it
    records the count for that player only, and otherwise it raises an
    [AssertionError] and changes nothing. *)
Theorem make_prediction_spec (player : string) (tricks : Z) (g : Game) :
  ((make_prediction player tricks g).1 = Ok tt ↔
     player ∈ players g ∧ 0 ≤ tricks ≤ current_round g ∧
     predictions g !! player = None) ∧
  ((make_prediction player tricks g).1 = Ok tt →
     (make_prediction player tricks g).2
       = set_predictions (<[player := tricks]> (predictions g)) g) ∧
  ((make_prediction player tricks g).1 ≠ Ok tt →
     (make_prediction player tricks g).2 = g ∧
     ∃ msg, (make_prediction player tricks g).1 = Raise (AssertionError msg)).
Proof.
  destruct (make_prediction_cases player tricks g)
    as [[e He]|(Hin & Hr & Hp & Heq)].
  - rewrite He. simpl. split_and!; [|done|].
    + split; [done|]. intros (Hin & Hr & Hp). revert He.
      unfold make_prediction. unfold_monad.
      rewrite bool_decide_true by done. simpl.
      rewrite (bool_decide_true (0 ≤ tricks)) by lia.
      rewrite (bool_decide_true (tricks ≤ _)) by lia. simpl.
      rewrite bool_decide_true by done. done.
    + intros _. split; [done|]. revert He.
      unfold make_prediction. unfold_monad.
      repeat case_match; intros ?; simplify_eq; eauto.
  - rewrite Heq. simpl. split_and!; [done|done|done].
Qed.

Lemma play_card_predictions player card g res g' :
  play_card player card g = (res, g') → predictions g' = predictions g.
Proof.
  intros Hrun.
  destruct (play_card_cases player card g) as [[e He]|(hand & _ & _ & _ & Heq)].
  - rewrite He in Hrun. by injection Hrun as <- <-.
  - rewrite Heq in Hrun.
    apply finish_play_cases in Hrun
      as [(e & _ & ->)|[(_ & _ & w & won & _ & _ & ->)|(_ & _ & i & next & _ & _ & ->)]];
      done.
Qed.

(** X4: between two round starts a recorded prediction stays as it is. *)
Theorem prediction_is_kept (g g' : Game) (p : string) (t : Z) :
  round_run g g' →
  predictions g !! p = Some t →
  predictions g' !! p = Some t.
Proof.
  intros Hrun Hp.
  induction Hrun as [g|g g1 q t' res g' _ IH Hstep|g g1 q c res g' _ IH Hstep
                    |g g1 res g' _ IH Hstep]; [done|..].
  - destruct (make_prediction_cases q t' g1) as [[e He]|(_ & _ & Hnone & Heq)].
    + rewrite He in Hstep. injection Hstep as <- <-. auto.
    + rewrite Heq in Hstep. injection Hstep as <- <-. simpl.
      rewrite lookup_insert_ne; [auto|]. intros ->. rewrite IH in Hnone; done.
  - rewrite (play_card_predictions _ _ _ _ _ Hstep). auto.
  - apply calculate_round_scores_state in Hstep as (sc & -> & _). simpl. auto.
Qed.

Lemma play_card_ok_frame (player : string) (card : Card) (g g' : Game) :
  play_card player card g = (Ok tt, g') →
  players g' = players g ∧ current_round g' = current_round g ∧
  trump_card g' = trump_card g ∧ scores g' = scores g ∧
  predictions g' = predictions g ∧ deck g' = deck g ∧
  ∃ hand, hands g !! player = Some hand ∧ card ∈ hand ∧
    hands g' = <[player := list_remove card hand]> (hands g) ∧
    if bool_decide (S (length (current_trick g)) = length (players g))
    then current_trick g' = [] ∧
         ∃ w won, current_player g' = Some w ∧ w ∈ players g ∧
           tricks_won g !! w = Some won ∧
           tricks_won g' = <[w := won + 1]> (tricks_won g)
    else current_trick g' = current_trick g ++ [card] ∧
         tricks_won g' = tricks_won g.
Proof.
  intros (hand & Hcur & Hhand & Hin & _ & Hfin)%play_card_ok_cases.
  apply finish_play_cases in Hfin
    as [(e & [=] & _)|[(_ & Hlen & w & won & Hw & Hwon & ->)
                      |(_ & Hlen & i & next & Hi & Hnext & ->)]];
    simpl in *; rewrite length_app in Hlen; simpl in Hlen.
  - split_and!; try done. exists hand. split_and!; try done.
    rewrite bool_decide_true by lia. split; [done|].
    exists w, won. split_and!; try done.
    revert Hw. unfold _determine_trick_winner. simpl.
    unfold nth_player.
    repeat case_match; intros [= <-]; by eapply list_elem_of_lookup_2.
  - split_and!; try done. exists hand. split_and!; try done.
    rewrite bool_decide_false by lia. done.
Qed.

(** X5: a successful [play_card], in any state, leaves roster, round, trump
    card, scores, predictions and deck alone, removes the card from the
    player's hand, and either appends it to the trick or, when that
    completes the trick, clears the trick and credits one more trick to a
    roster player who becomes the current player. *)
Theorem play_card_frame (player : string) (card : Card) (g g' : Game) :
  play_card player card g = (Ok tt, g') →
  players g' = players g ∧ current_round g' = current_round g ∧
  trump_card g' = trump_card g ∧ scores g' = scores g ∧
  predictions g' = predictions g ∧ deck g' = deck g ∧
  ∃ hand, hands g !! player = Some hand ∧ card ∈ hand ∧
    hands g' = <[player := list_remove card hand]> (hands g) ∧
    if bool_decide (S (length (current_trick g)) = length (players g))
    then current_trick g' = [] ∧
         ∃ w won, current_player g' = Some w ∧ w ∈ players g ∧
           tricks_won g !! w = Some won ∧
           tricks_won g' = <[w := won + 1]> (tricks_won g)
    else current_trick g' = current_trick g ++ [card] ∧
         tricks_won g' = tricks_won g.
Proof. apply play_card_ok_frame. Qed.

(** ** Bounds, turns and progress *)


(** X7: in a reachable state [start_round] succeeds exactly before the last
    round; in the last round it raises the round-limit assertion. *)
Theorem start_round_succeeds_iff (shuffle : list Card → list Card)
    (g : Game) (gh : Ghost) :
  reach g gh → is_shuffle shuffle →
  ((start_round shuffle g).1 = Ok tt ↔ current_round g < max_rounds g) ∧
  (current_round g = max_rounds g →
   (start_round shuffle g).1
     = Raise (AssertionError
                ("Game cannot exceed " +:+ str (max_rounds g) +:+ " rounds"))).
Proof.
  intros Hreach Hsh.
  pose proof (reach_inv _ _ Hreach) as [_ Hroster Hround _ _ _ _ _ _ _ _ _ _ _ _].
  assert (∀ (Hlast : ¬ current_round g < max_rounds g),
            (start_round shuffle g).1
            = Raise (AssertionError
                       ("Game cannot exceed " +:+ str (max_rounds g) +:+ " rounds")))
    as Hlimit.
  { intros Hlast. rewrite start_round_limit; [done|lia|].
    unfold max_rounds in Hlast. lia. }
  split.
  - split.
    + intros Hok. destruct (decide (current_round g < max_rounds g)); [done|].
      rewrite Hlimit in Hok; done.
    + intros Hlt.
      destruct (start_round_succeeds shuffle g gh Hreach Hsh Hlt) as (g' & -> & _).
      done.
  - intros Heq. apply Hlimit. lia.
Qed.


Lemma all_hands_empty_iff g :
  all_hands_empty g = true ↔ ∀ p h, hands g !! p = Some h → h = [].
Proof.
  unfold all_hands_empty. rewrite forallb_forall. split.
  - intros Hall p h Hp.
    assert (In (p, h) (map_to_list (hands g))) as Hin
      by (by apply list_elem_of_In, elem_of_map_to_list).
    apply Hall in Hin. simpl in Hin. apply bool_decide_eq_true in Hin.
    by destruct h.
  - intros Hall [p h] Hin%list_elem_of_In%elem_of_map_to_list. simpl.
    rewrite (Hall p h Hin). done.
Qed.

Lemma current_not_played g gh p :
  inv g gh → current_player g = Some p →
  1 ≤ current_round g ∧ p ∈ players g ∧ p ∉ played_by gh.
Proof.
  intros [Hnd Hroster Hround Hhdom Hwdom Hsdom Hhcards Htcards [Hk Hkn]
          Hhlen Hbefore Hturn Hdeck Htotal Hplayed] Hcur.
  assert (1 ≤ current_round g) as Hr1.
  { destruct (decide (current_round g = 0)) as [H0|]; [|lia].
    destruct (Hbefore H0) as [Hnone _]. congruence. }
  destruct (Hturn Hr1) as (_ & l & Hl & Hpb & _ & Hseat).
  rewrite Hcur in Hseat. symmetry in Hseat.
  split_and!; [done|by eapply list_elem_of_lookup_2|].
  intros [j Hj]%list_elem_of_lookup.
  pose proof (lookup_lt_Some _ _ _ Hj) as Hjk.
  rewrite (Hpb j Hjk) in Hj.
  pose proof (NoDup_lookup _ _ _ _ Hnd Hj Hseat) as Heq.
  apply mod_seat_inj in Heq; lia.
Qed.

Lemma play_card_outcome_reach (g : Game) (gh : Ghost) (p : string)
    (c : Card) (hand : list Card) :
  reach g gh →
  current_player g = Some p → hands g !! p = Some hand → c ∈ hand →
  (play_card p c g).1 = Ok tt ∨ (play_card p c g).1 = Raise must_follow_suit.
Proof.
  intros Hreach Hcur Hhand Hin.
  pose proof (reach_inv _ _ Hreach) as Hinv.
  destruct (play_card p c g) as [res g'] eqn:Hrun. simpl.
  pose proof Hrun as Hrun'.
  rewrite (play_card_validated _ _ _ _ Hcur Hhand Hin) in Hrun'.
  destruct (validate_follow_suit_outcome (current_trick g) hand c g) as [Hok|Herr];
    rewrite ?Hok, ?Herr in Hrun'; [|right; congruence].
  left.
  destruct (inv_play _ _ _ _ _ _ Hinv Hrun) as [(e & -> & ->)|[-> _]]; [|done].
  apply finish_play_cases in Hrun' as [(e' & _ & Heq)|[([=] & _)|([=] & _)]].
  apply (f_equal current_trick) in Heq. simpl in Heq.
  apply (f_equal length) in Heq. rewrite length_app in Heq. simpl in Heq. lia.
Qed.

(** X8: in a reachable state, a card of the current player's hand either is
    played successfully or is refused for not following suit; no other
    exception can occur. *)
Theorem play_card_only_fails_on_suit (g : Game) (gh : Ghost) (p : string)
    (c : Card) (hand : list Card) :
  reach g gh →
  current_player g = Some p → hands g !! p = Some hand → c ∈ hand →
  (play_card p c g).1 = Ok tt ∨ (play_card p c g).1 = Raise must_follow_suit.
Proof. apply play_card_outcome_reach. Qed.

Lemma forallb_false_witness {A} (f : A → bool) l :
  forallb f l = false → ∃ x, x ∈ l ∧ f x = false.
Proof.
  induction l as [|x l IH]; simpl; [done|].
  destruct (f x) eqn:Hx; simpl.
  - intros (y & Hy & Hfy)%IH. exists y. split; [by right|done].
  - intros _. exists x. split; [by left|done].
Qed.

(** X9: while the round is not complete, the player whose turn it is holds a
    card that [play_card] accepts. *)
Theorem round_never_stuck (g : Game) (gh : Ghost) :
  reach g gh → is_round_complete g = false →
  ∃ p c, current_player g = Some p ∧ (play_card p c g).1 = Ok tt.
Proof.
  intros Hreach Hnot.
  pose proof (reach_inv _ _ Hreach) as Hinv.
  apply forallb_false_witness in Hnot as ([q hq] & Hq%elem_of_map_to_list & Hne).
  simpl in Hne. apply bool_decide_eq_false in Hne.
  destruct Hinv as [Hnd Hroster Hround Hhdom Hwdom Hsdom Hhcards Htcards [Hk Hkn]
                    Hhlen Hbefore Hturn Hdeck Htotal Hplayed] eqn:HeqInv.
  clear HeqInv.
  pose proof (Hhlen q hq Hq) as Hqlen.
  assert (1 ≤ current_round g - Z.of_nat (tricks_done gh)) as Hleft.
  { unfold played_this_trick in Hqlen. case_bool_decide; lia. }
  destruct (Hturn ltac:(lia)) as (_ & l & Hl & _ & Hcurne & Hseat).
  destruct (current_player g) as [p|] eqn:Hcur; [|done].
  destruct (current_not_played g gh p (reach_inv _ _ Hreach) Hcur)
    as (_ & Hpin & Hpnot).
  destruct (proj2 (Hhdom p) Hpin) as [hand Hhand].
  pose proof (Hhlen p hand Hhand) as Hplen.
  unfold played_this_trick in Hplen. rewrite bool_decide_false in Hplen by done.
  destruct hand as [|c0 hand0] eqn:Hh; [simpl in Hplen; lia|]. rewrite <- Hh in *.
  assert (∃ c, c ∈ hand ∧
            (validate_follow_suit (current_trick g) hand c g).1 ≠ Raise must_follow_suit)
    as (c & Hc & Hvalid).
  { destruct (current_trick g) as [|lead rest] eqn:Htrick.
    - exists c0. split; [rewrite Hh; by left|].
      rewrite validate_follow_suit_raises. by intros (? & ? & _).
    - destruct (decide (Exists (λ x, x.1 = lead.1) hand)) as [Hex|Hnex].
      + apply Exists_exists in Hex as (c & Hc & Hsuit). exists c. split; [done|].
        rewrite validate_follow_suit_raises.
        intros (? & [= <-] & _ & _ & _ & Hdiff). done.
      + exists c0. split; [rewrite Hh; by left|].
        rewrite validate_follow_suit_raises.
        intros (? & [= <-] & _ & _ & (x & Hx & Hsuit) & _).
        apply Hnex, Exists_exists. eauto. }
  exists p, c. split; [done|].
  destruct (play_card_outcome_reach g gh p c hand Hreach Hcur Hhand Hc)
    as [Hok|Herr]; [done|].
  exfalso. apply Hvalid.
  rewrite (play_card_validated _ _ _ _ Hcur Hhand Hc) in Herr.
  destruct (validate_follow_suit_outcome (current_trick g) hand c g) as [Hv|Hv];
    [|done].
  rewrite Hv in Herr.
  by destruct (finish_play_error _ _ _ Herr "Must follow suit if possible").
Qed.







(** ** Tricks, predictions and scoring over runs *)


(** X13: in a reachable state every recorded prediction belongs to a roster
    player and lies between 0 and the round number. *)
Theorem predictions_in_range (g : Game) (gh : Ghost) (p : string) (t : Z) :
  reach g gh → predictions g !! p = Some t →
  p ∈ players g ∧ 0 ≤ t ≤ current_round g.
Proof.
  intros Hreach. revert p t.
  induction Hreach as [ps g Hnd Hinit
                 |g gh sh g' Hreach IH Hsh Hrun
                 |g gh q t' res g' Hreach IH Hrun
                 |g gh q c g' Hreach IH Hrun
                 |g gh q c e g' Hreach IH Hrun
                 |g gh res g' Hreach IH Hrun]; intros p t.
  - unfold __init__ in Hinit. case_match; [|done]. injection Hinit as <-. done.
  - apply start_round_shape in Hrun as (hs & dk & tr & p0 & -> & _). done.
  - destruct (make_prediction_cases q t' g) as [[e He]|(Hin & Hr & _ & Heq)].
    + rewrite He in Hrun. injection Hrun as <- <-. apply IH.
    + rewrite Heq in Hrun. injection Hrun as <- <-. simpl.
      destruct (decide (q = p)) as [->|Hne].
      * rewrite lookup_insert_eq. by intros [= <-].
      * rewrite lookup_insert_ne by done. apply IH.
  - destruct (play_card_ok_frame _ _ _ _ Hrun) as (-> & -> & _ & _ & -> & _).
    apply IH.
  - rewrite (play_card_error_state _ _ _ _ _ _ Hreach Hrun). apply IH.
  - apply calculate_round_scores_state in Hrun as (sc & -> & _). apply IH.
Qed.

(** X14: [calculate_round_scores] raises "Round not complete", changing
    nothing, exactly when some hand still holds a card. *)
Theorem scoring_refuses_unfinished_round (g : Game) :
  calculate_round_scores g = (Raise (AssertionError "Round not complete"), g)
  ↔ ∃ p h, hands g !! p = Some h ∧ h ≠ [].
Proof.
  split.
  - intros Hrun. destruct (all_hands_empty g) eqn:Hempty.
    + exfalso. revert Hrun. unfold calculate_round_scores. unfold_monad.
      rewrite Hempty. intros Hloop.
      assert (∀ ps g0 e g', for_each ps score_player g0 = (Raise e, g') →
                ∃ k, e = KeyError k) as Hkey.
      { induction ps as [|p ps IH]; intros g0 e g'; simpl; [done|].
        unfold bind.
        destruct (score_player_cases p g0) as [[k ->]|[s ->]].
        - intros [= <- _]. eauto.
        - apply IH. }
      apply Hkey in Hloop as [k [=]].
    + apply forallb_false_witness in Hempty
        as ([p h] & Hp%elem_of_map_to_list & Hne).
      simpl in Hne. apply bool_decide_eq_false in Hne.
      exists p, h. split; [done|]. by intros ->.
  - intros (p & h & Hp & Hne).
    unfold calculate_round_scores. unfold_monad.
    destruct (all_hands_empty g) eqn:Hempty; [|done].
    rewrite all_hands_empty_iff in Hempty. by apply Hempty in Hp.
Qed.

(** X15: whatever its outcome, [calculate_round_scores] changes nothing but
    the scores. *)
Theorem scoring_touches_only_scores (g g' : Game) (res : Outcome unit) :
  calculate_round_scores g = (res, g') →
  g' = set_scores (scores g') g.
Proof. intros (sc & -> & _)%calculate_round_scores_state. done. Qed.

(** X16: there is no guard against scoring twice: a second call in the same
    state of play applies every player's change a second time. *)
Theorem scoring_twice_applies_twice (g : Game) (gh : Ghost) :
  reach g gh →
  is_round_complete g = true →
  Forall (λ p, is_Some (predictions g !! p)) (players g) →
  ∃ g1 g2,
    calculate_round_scores g = (Ok tt, g1) ∧
    calculate_round_scores g1 = (Ok tt, g2) ∧
    ∀ p predicted won score,
      p ∈ players g → predictions g !! p = Some predicted →
      tricks_won g !! p = Some won → scores g !! p = Some score →
      scores g1 !! p = Some (score + round_delta predicted won) ∧
      scores g2 !! p = Some (score + 2 * round_delta predicted won).
Proof.
  intros [Hnd _ _ _ Hwdom Hsdom _ _ _ _ _ _ _ _ _]%reach_inv Hempty Hpred.
  rewrite Forall_forall in Hpred. unfold is_round_complete in Hempty.
  destruct (scoring_loop_ok (players g) g Hnd) as (sc1 & Hrun1 & _ & Hin1).
  { apply Forall_forall. intros p Hp. split_and!; auto. }
  destruct (scoring_loop_ok (players g) (set_scores sc1 g) Hnd)
    as (sc2 & Hrun2 & _ & Hin2).
  { apply Forall_forall. intros p Hp. simpl. split_and!; auto.
    destruct (Hpred p Hp) as [pr Hpr], (Hwdom p Hp) as [w Hw], (Hsdom p Hp) as [s Hs].
    rewrite (Hin1 p pr w s Hp Hpr Hw Hs). eauto. }
  exists (set_scores sc1 g), (set_scores sc2 g). split_and!.
  - unfold calculate_round_scores. unfold_monad. by rewrite Hempty.
  - unfold calculate_round_scores. unfold_monad.
    change (all_hands_empty (set_scores sc1 g)) with (all_hands_empty g).
    rewrite Hempty. simpl. by rewrite Hrun2.
  - intros p pr w s Hp Hpr Hw Hs. simpl.
    pose proof (Hin1 p pr w s Hp Hpr Hw Hs) as H1. split; [done|].
    rewrite (Hin2 p pr w (s + round_delta pr w) Hp Hpr Hw H1). f_equal. lia.
Qed.

(** ** Resolving a trick *)

Lemma filter_enumerate_first (f : Card → bool) (pre post : list Card) x : ∀ k,
  Forall (λ c, f c = false) pre → f x = true →
  ∃ tl, List.filter (λ ic : nat * Card, f ic.2)
          (zip (seq k (length (pre ++ x :: post))) (pre ++ x :: post))
        = ((k + length pre)%nat, x) :: tl.
Proof.
  induction pre as [|c pre IH]; intros k Hpre Hx; simpl.
  - rewrite Hx. rewrite Nat.add_0_r. eauto.
  - apply Forall_cons in Hpre as [Hc Hpre]. rewrite Hc.
    destruct (IH (S k) Hpre Hx) as [tl ->]. exists tl. f_equal. f_equal. lia.
Qed.

(** X17: the first WIZARD of a trick decides it, whatever else is played and
    whatever the trump card is: the result is the roster entry at that
    position of the trick. *)
Theorem first_wizard_decides (g : Game) (pre post : list Card) :
  current_trick g = pre ++ (WHITE, WIZARD) :: post →
  Forall (λ c, is_wizard c = false) pre →
  _determine_trick_winner g = nth_player (players g) (length pre).
Proof.
  intros Htrick Hpre. unfold _determine_trick_winner, enumerate.
  rewrite Htrick.
  destruct (filter_enumerate_first is_wizard pre post (WHITE, WIZARD) 0%nat Hpre eq_refl)
    as [tl ->].
  by destruct pre.
Qed.

(** X18: a trick of JESTERs only goes to the roster entry at position 0. *)
Theorem all_jesters_first_seat (g : Game) :
  current_trick g ≠ [] →
  Forall (λ c, c = (WHITE, JESTER)) (current_trick g) →
  _determine_trick_winner g = nth_player (players g) 0.
Proof.
  intros Hne Hall. unfold _determine_trick_winner.
  destruct (current_trick g) as [|c trick] eqn:Htrick; [done|].
  rewrite <- Htrick in *.
  assert (List.filter (λ ic : nat * Card, is_wizard ic.2) (enumerate (current_trick g)) = [])
    as ->.
  { destruct (List.filter _ _) as [|[i x] tl] eqn:Hf; [done|].
    assert (In (i, x) (List.filter (λ ic : nat * Card, is_wizard ic.2)
                         (enumerate (current_trick g)))) as Hin
      by (rewrite Hf; by left).
    apply filter_In in Hin as [Hin Hw]. simpl in Hw.
    apply list_elem_of_In, enumerate_lookup, list_elem_of_lookup_2 in Hin.
    rewrite Forall_forall in Hall. by rewrite (Hall x Hin) in Hw. }
  assert (forallb is_jester (current_trick g) = true) as ->; [|done].
  apply forallb_forall. intros x Hx%list_elem_of_In.
  rewrite Forall_forall in Hall. by rewrite (Hall x Hx).
Qed.

(** X19: without a trump card the comparison of two cards raises
    [TypeError]: a trick without a WIZARD that holds two cards other than
    JESTERs cannot be resolved while [trump_card] is [None]. *)
Theorem no_trump_card_type_error (g : Game) :
  trump_card g = None →
  has_wizard (current_trick g) = false →
  (2 ≤ length (compared_cards (current_trick g)))%nat →
  _determine_trick_winner g = Raise TypeError.
Proof.
  intros Htrump Hnw Hlen. unfold _determine_trick_winner.
  destruct (current_trick g) as [|c trick] eqn:Htrick; [simpl in Hlen; lia|].
  rewrite <- Htrick in *.
  assert (List.filter (λ ic : nat * Card, is_wizard ic.2) (enumerate (current_trick g)) = [])
    as ->.
  { destruct (List.filter _ _) as [|[i x] tl] eqn:Hf; [done|].
    assert (In (i, x) (List.filter (λ ic : nat * Card, is_wizard ic.2)
                         (enumerate (current_trick g)))) as Hin
      by (rewrite Hf; by left).
    apply filter_In in Hin as [Hin Hw]. simpl in Hw.
    apply list_elem_of_In, enumerate_lookup, list_elem_of_lookup_2 in Hin.
    assert (existsb is_wizard (current_trick g) = true) as Hex
      by (apply existsb_exists; exists x; by rewrite <- list_elem_of_In).
    unfold has_wizard in Hnw. congruence. }
  destruct (forallb is_jester (current_trick g)) eqn:Hall.
  { exfalso. unfold compared_cards in Hlen.
    destruct (List.filter _ _) as [|[i x] tl] eqn:Hf; [simpl in Hlen; lia|].
    assert (In (i, x) (List.filter (λ ic : nat * Card, negb (is_jester ic.2))
                         (enumerate (current_trick g)))) as Hin
      by (rewrite Hf; by left).
    apply filter_In in Hin as [Hin Hj]. simpl in Hj.
    apply list_elem_of_In, enumerate_lookup, list_elem_of_lookup_2 in Hin.
    rewrite forallb_forall in Hall.
    rewrite (Hall x) in Hj by (by apply list_elem_of_In). done. }
  unfold compared_cards in Hlen. rewrite Htrump.
  destruct (List.filter _ _) as [|[i x] [|[j y] tl]]; simpl in Hlen; try lia.
  done.
Qed.

Lemma winner_loop_best t first_suit rest : ∀ seen wc wi,
  (∀ i c, (i, c) ∈ seen ++ rest → ∃ n, c.2 = Rank n) →
  (wi, wc) ∈ seen →
  (suit_played t seen = true → wc.1 = t.1) →
  (suit_played t seen = false → wc.1 = first_suit) →
  (∀ j c, (j, c) ∈ seen → c.1 = wc.1 → rank_of c ≤ rank_of wc) →
  ∃ wc' wi',
    winner_loop (Some t) rest (Some (wc, wi)) = Ok (Some (wc', wi')) ∧
    (wi', wc') ∈ seen ++ rest ∧
    (suit_played t (seen ++ rest) = true → wc'.1 = t.1) ∧
    (suit_played t (seen ++ rest) = false → wc'.1 = first_suit) ∧
    (∀ j c, (j, c) ∈ seen ++ rest → c.1 = wc'.1 → rank_of c ≤ rank_of wc').
Proof.
  induction rest as [|[i c] rest IH]; intros seen wc wi Hord Hin Htr Hfirst Hmax.
  - exists wc, wi. rewrite app_nil_r. done.
  - assert (∀ i0 c0, (i0, c0) ∈ (seen ++ [(i, c)]) ++ rest → ∃ n, c0.2 = Rank n) as Hord'
      by (intros ??; rewrite <- app_assoc; apply Hord).
    assert (suit_played t (seen ++ [(i, c)])
            = suit_played t seen || bool_decide (c.1 = t.1)) as Hsp.
    { unfold suit_played. rewrite existsb_app. simpl. by rewrite orb_false_r. }
    destruct (Hord i c) as [x Hx]; [apply elem_of_app; right; by left|].
    destruct (Hord wi wc) as [y Hy]; [apply elem_of_app; by left|].
    assert (∃ wc1 wi1,
      winner_loop (Some t) ((i, c) :: rest) (Some (wc, wi))
        = winner_loop (Some t) rest (Some (wc1, wi1)) ∧
      (wi1, wc1) ∈ seen ++ [(i, c)] ∧
      (suit_played t (seen ++ [(i, c)]) = true → wc1.1 = t.1) ∧
      (suit_played t (seen ++ [(i, c)]) = false → wc1.1 = first_suit) ∧
      (∀ j c', (j, c') ∈ seen ++ [(i, c)] → c'.1 = wc1.1 →
         rank_of c' ≤ rank_of wc1)) as (wc1 & wi1 & Hstep & H1 & H2 & H3 & H4).
    { simpl. rewrite Hsp.
      destruct (decide (c.1 = t.1)) as [Hct|Hct];
        [rewrite (bool_decide_true (c.1 = t.1)) by done
        |rewrite (bool_decide_false (c.1 = t.1)) by done]; simpl.
      - destruct (decide (wc.1 = t.1)) as [Hwt|Hwt];
          [rewrite (bool_decide_false (wc.1 ≠ t.1)) by (by intros ?)
          |rewrite (bool_decide_true (wc.1 ≠ t.1)) by done]; simpl.
        + (* both trump: compare ranks *)
          rewrite bool_decide_true by congruence.
          rewrite Hx, Hy. simpl.
          destruct (decide (y < x)) as [Hlt|Hge];
            [rewrite bool_decide_true by done|rewrite bool_decide_false by done].
          * exists c, i. split_and!; [done|apply elem_of_app; right; by left
                                      |by rewrite orb_true_r|by rewrite orb_true_r|].
            intros j c' [Hj|Hj%list_elem_of_singleton]%elem_of_app Hs.
            -- pose proof (Hmax j c' Hj ltac:(congruence)) as Hle.
               unfold rank_of in *. rewrite Hx. rewrite Hy in Hle. lia.
            -- by (apply (f_equal snd) in Hj; simpl in Hj; subst c').
          * exists wc, wi. split_and!; [done|apply elem_of_app; by left
                                       |done|by rewrite orb_true_r|].
            intros j c' [Hj|Hj%list_elem_of_singleton]%elem_of_app Hs; [by eapply Hmax|].
            apply (f_equal snd) in Hj. simpl in Hj. subst c'. unfold rank_of. rewrite Hx, Hy. lia.
        + (* the first trump card takes over *)
          assert (suit_played t seen = false) as Hnone
            by (destruct (suit_played t seen); [by specialize (Htr eq_refl)|done]).
          exists c, i. split_and!; [done|apply elem_of_app; right; by left
                                    |done|by rewrite orb_true_r|].
          intros j c' [Hj|Hj%list_elem_of_singleton]%elem_of_app Hs.
          * exfalso. unfold suit_played in Hnone.
            rewrite <- not_true_iff_false in Hnone. apply Hnone.
            apply existsb_exists. exists (j, c').
            split; [by apply list_elem_of_In|].
            simpl. apply bool_decide_eq_true. congruence.
          * by (apply (f_equal snd) in Hj; simpl in Hj; subst c').
      - rewrite orb_false_r.
        destruct (decide (c.1 = wc.1)) as [Hcw|Hcw];
          [rewrite bool_decide_true by done|rewrite bool_decide_false by done].
        + rewrite Hx, Hy. simpl.
          destruct (decide (y < x)) as [Hlt|Hge];
            [rewrite bool_decide_true by done|rewrite bool_decide_false by done].
          * exists c, i. split_and!; [done|apply elem_of_app; right; by left|..].
            -- intros Hs. specialize (Htr Hs). congruence.
            -- intros Hs. specialize (Hfirst Hs). congruence.
            -- intros j c' [Hj|Hj%list_elem_of_singleton]%elem_of_app Hs.
               ++ pose proof (Hmax j c' Hj ltac:(congruence)) as Hle.
                  unfold rank_of in *. rewrite Hx. rewrite Hy in Hle. lia.
               ++ by (apply (f_equal snd) in Hj; simpl in Hj; subst c').
          * exists wc, wi. split_and!; [done|apply elem_of_app; by left|done|done|].
            intros j c' [Hj|Hj%list_elem_of_singleton]%elem_of_app Hs; [by eapply Hmax|].
            apply (f_equal snd) in Hj. simpl in Hj. subst c'. unfold rank_of. rewrite Hx, Hy. lia.
        + exists wc, wi. split_and!; [done|apply elem_of_app; by left|done|done|].
          intros j c' [Hj|Hj%list_elem_of_singleton]%elem_of_app Hs; [by eapply Hmax|].
          by (apply (f_equal snd) in Hj; simpl in Hj; subst c'). }
    rewrite Hstep.
    destruct (IH (seen ++ [(i, c)]) wc1 wi1 Hord' H1 H2 H3 H4)
      as (wc' & wi' & Hrun & Ha & Hb & Hc & Hd).
    rewrite <- app_assoc in *. simpl in *.
    exists wc', wi'. done.
Qed.

Lemma wizard_filter_nil trick :
  has_wizard trick = false →
  List.filter (λ ic : nat * Card, is_wizard ic.2) (enumerate trick) = [].
Proof.
  intros Hnw. destruct (List.filter _ _) as [|[i x] tl] eqn:Hf; [done|].
  assert (In (i, x) (List.filter (λ ic : nat * Card, is_wizard ic.2)
                       (enumerate trick))) as Hin
    by (rewrite Hf; by left).
  apply filter_In in Hin as [Hin Hw]. simpl in Hw.
  apply list_elem_of_In, enumerate_lookup, list_elem_of_lookup_2 in Hin.
  assert (existsb is_wizard trick = true) as Hex
    by (apply existsb_exists; exists x; by rewrite <- list_elem_of_In).
  unfold has_wizard in Hnw. congruence.
Qed.

(** X20: a trick of deck cards without a WIZARD goes to the position of a
    card that is not a JESTER, has the trump suit if a compared card has
    it and the suit of the first compared card otherwise, and has the
    highest rank among the compared cards of its suit. *)
Theorem ordinary_trick_winner (g : Game) (t : Card) (i0 : nat) (c0 : Card)
    (rest : list (nat * Card)) :
  trump_card g = Some t →
  has_wizard (current_trick g) = false →
  Forall (λ c, c ∈ _create_deck) (current_trick g) →
  compared_cards (current_trick g) = (i0, c0) :: rest →
  ∃ i c, current_trick g !! i = Some c ∧ is_jester c = false ∧
    _determine_trick_winner g = nth_player (players g) i ∧
    c.1 = (if suit_played t (compared_cards (current_trick g))
           then t.1 else c0.1) ∧
    ∀ j c', (j, c') ∈ compared_cards (current_trick g) →
      c'.1 = c.1 → rank_of c' ≤ rank_of c.
Proof.
  intros Htrump Hnw Hdeck Hcmp.
  assert (∀ i c, (i, c) ∈ compared_cards (current_trick g) → ∃ n, c.2 = Rank n) as Hord.
  { intros i c Hin. apply deck_card_rank.
    - rewrite Forall_forall in Hdeck. apply Hdeck.
      apply list_elem_of_In, filter_In in Hin as [Hin _].
      by apply list_elem_of_In, enumerate_lookup, list_elem_of_lookup_2 in Hin.
    - by eapply compared_cards_not_white. }
  destruct (winner_loop_best t c0.1 rest [(i0, c0)] c0 i0)
    as (wc & wi & Hloop & Hin & Htr & Hfirst & Hmax).
  { intros i c Hin. apply (Hord i c). by rewrite Hcmp. }
  { by left. }
  { unfold suit_played. simpl. rewrite orb_false_r.
    by intros ?%bool_decide_eq_true. }
  { done. }
  { intros j c [= -> ->]%list_elem_of_singleton _. done. }
  change ([(i0, c0)] ++ rest) with ((i0, c0) :: rest) in Hin, Htr, Hfirst, Hmax.
  rewrite <- Hcmp in Hin, Htr, Hfirst, Hmax.
  exists wi, wc.
  pose proof Hin as Hin'.
  apply list_elem_of_In, filter_In in Hin' as [Hlook Hnj].
  apply list_elem_of_In, enumerate_lookup in Hlook. simpl in Hnj.
  split_and!; [done|by apply negb_true_iff| | |done].
  - unfold _determine_trick_winner.
    destruct (current_trick g) as [|lead trick] eqn:Htrick; [done|].
    rewrite <- Htrick in *.
    rewrite (wizard_filter_nil _ Hnw).
    destruct (forallb is_jester (current_trick g)) eqn:Hall.
    { rewrite forallb_forall in Hall.
      rewrite (Hall wc) in Hnj; [done|].
      by eapply list_elem_of_In, list_elem_of_lookup_2. }
    fold (compared_cards (current_trick g)).
    rewrite Htrump, Hcmp. simpl. by rewrite Hloop.
  - destruct (suit_played t (compared_cards (current_trick g))); auto.
Qed.

(** ** Dealing and creation *)

Lemma blocks_concat (R : list Card) r (hs : gmap string (list Card)) ps : ∀ k,
  (∀ i p, ps !! i = Some p → hs !! p = Some (block_hand R r (k + i))) →
  flat_map (λ p, default [] (hs !! p)) ps
  = take (length ps * r) (drop (k * r) R).
Proof.
  induction ps as [|p ps IH]; intros k Hblocks; simpl; [done|].
  rewrite (Hblocks 0%nat p eq_refl). simpl. rewrite Nat.add_0_r.
  rewrite (IH (S k)).
  - unfold block_hand. rewrite <- take_take_drop, drop_drop.
    by replace (k * r + r)%nat with (S k * r)%nat by lia.
  - intros i q Hq. rewrite (Hblocks (S i) q Hq). f_equal. f_equal. lia.
Qed.

Lemma _deal_cards_dealt sh g :
  NoDup (players g) →
  (length (players g) * Z.to_nat (current_round g) ≤ length (sh (deck g)))%nat →
  ∃ g', _deal_cards sh g = (Ok tt, g') ∧ players g' = players g ∧
    dealt_cards g' ++ rev (deck g') = rev (sh (deck g)).
Proof.
  intros Hnd Hlen.
  destruct (_deal_cards_ok sh g Hnd Hlen) as (hs & -> & _ & Hin).
  eexists. split_and!; [done|done|].
  unfold dealt_cards. simpl.
  rewrite (blocks_concat (rev (sh (deck g))) (Z.to_nat (current_round g)) hs _ 0%nat)
    by done.
  simpl. rewrite drop_0.
  set (m := (length (players g) * Z.to_nat (current_round g))%nat) in *.
  rewrite <- (take_drop m (rev (sh (deck g)))) at 2. f_equal.
  by rewrite skipn_rev.
Qed.

(** X21: with distinct players and enough cards, dealing splits the
    post-shuffle deck without losing or repeating a card: the hands in
    roster order followed by the rest of the deck read from its end are the
    shuffled deck read from its end, hence a rearrangement of the deck
    before the shuffle. *)
Theorem _deal_cards_conserves (shuffle : list Card → list Card) (g : Game) :
  is_shuffle shuffle →
  NoDup (players g) →
  (length (players g) * Z.to_nat (current_round g) ≤ length (deck g))%nat →
  ∃ g', _deal_cards shuffle g = (Ok tt, g') ∧
    dealt_cards g' ++ rev (deck g') = rev (shuffle (deck g)) ∧
    dealt_cards g' ++ deck g' ≡ₚ deck g.
Proof.
  intros Hsh Hnd Hlen.
  destruct (_deal_cards_dealt shuffle g Hnd) as (g' & Hrun & _ & Heq).
  { by rewrite (Permutation_length (Hsh (deck g))). }
  exists g'. split_and!; [done|done|].
  rewrite <- (Hsh (deck g)), (Permutation_rev (shuffle (deck g))), <- Heq.
  by rewrite <- (Permutation_rev (deck g')).
Qed.

Lemma deal_loop_short ps : ∀ g,
  (length (deck g) < length ps * Z.to_nat (current_round g))%nat →
  ∃ g', for_each ps deal_body g = (Raise IndexError, g').
Proof.
  induction ps as [|p ps IH]; intros g Hlen; simpl in *; [lia|].
  unfold bind.
  destruct (decide (Z.to_nat (current_round g) ≤ length (deck g))%nat) as [Hle|Hgt].
  - rewrite (deal_body_ok p g (rev (deck g))); [|by rewrite rev_involutive
                                                |by rewrite length_rev].
    apply IH. simpl. rewrite length_rev, length_drop, length_rev. lia.
  - destruct (pop_many_short (Z.to_nat (current_round g)) g) as [g' Hshort]; [lia|].
    unfold deal_body. unfold_monad. rewrite Hshort. eauto.
Qed.

(** X22: when the deck is too short for [n * r] cards, [_deal_cards] raises
    [IndexError]. *)
Theorem _deal_cards_short_deck (shuffle : list Card → list Card) (g : Game) :
  (length (shuffle (deck g))
   < length (players g) * Z.to_nat (current_round g))%nat →
  ∃ g', _deal_cards shuffle g = (Raise IndexError, g').
Proof.
  intros Hlen. unfold _deal_cards. unfold_monad.
  by apply (deal_loop_short (players g) (set_deck (shuffle (deck g)) g)).
Qed.

(** X23: [__init__] accepts exactly rosters of 3 to 6 names; the new game is
    in round 0 with no trump card, no current player, no prediction, an
    empty trick and the 60-card deck, every roster name has score 0, an
    empty hand and 0 tricks, and no other name has an entry. *)
Theorem __init___spec (ps : list string) :
  ((∃ g, __init__ ps = Ok g) ↔ (3 ≤ length ps ≤ 6)%nat) ∧
  (¬ (3 ≤ length ps ≤ 6)%nat →
   __init__ ps = Raise (AssertionError "Number of players must be between 3 and 6")) ∧
  ∀ g, __init__ ps = Ok g →
    players g = ps ∧ current_round g = 0 ∧ trump_card g = None ∧
    current_player g = None ∧ predictions g = ∅ ∧ current_trick g = [] ∧
    length (deck g) = 60%nat ∧
    ∀ p, scores g !! p = (if bool_decide (p ∈ ps) then Some 0 else None) ∧
         hands g !! p = (if bool_decide (p ∈ ps) then Some [] else None) ∧
         tricks_won g !! p = (if bool_decide (p ∈ ps) then Some 0 else None).
Proof.
  unfold __init__.
  destruct (decide (3 ≤ length ps ≤ 6)%nat) as [Hok|Hbad].
  - rewrite !bool_decide_true by lia. simpl. split_and!.
    + split; [done|eauto].
    + done.
    + intros g [= <-]. simpl. split_and!; try done.
      intros p. by rewrite !dict_from_keys_lookup.
  - assert (bool_decide (3 ≤ Z.of_nat (length ps))
            && bool_decide (Z.of_nat (length ps) ≤ 6) = false) as ->.
    { apply andb_false_iff.
      destruct (decide (3 ≤ length ps)%nat);
        [right|left]; apply bool_decide_eq_false; lia. }
    split_and!; [split; [by intros [? ?]|done]|done|done].
Qed.

(** X24: right after a successful [start_round] in a reachable state, the
    players' hands, the rest of the deck and the trump card drawn for the
    round (none in the last round) are together exactly the cards of a
    fresh deck. *)
Theorem start_round_deals_the_whole_deck (shuffle : list Card → list Card)
    (g g' : Game) (gh : Ghost) :
  reach g gh → is_shuffle shuffle →
  start_round shuffle g = (Ok tt, g') →
  dealt_cards g' ++ deck g' ++ drawn_trump g' ≡ₚ _create_deck.
Proof.
  intros Hreach Hsh Hrun.
  pose proof (reach_inv _ _ Hreach) as [Hnd Hroster Hround _ _ _ _ _ _ _ _ _ _ _ _].
  assert (length (shuffle _create_deck) = 60%nat) as Hlen
    by (by rewrite (Permutation_length (Hsh _create_deck))).
  pose proof (start_round_shape _ _ _ Hrun) as (_ & _ & _ & _ & _ & Hr & _).
  destruct (start_round_ok shuffle g Hnd)
    as (hs & dk & tr & cur & Heq & _ & _ & Hin & Htr); [lia|lia|done|done|].
  rewrite Hrun in Heq. injection Heq as ->.
  pose proof (max_rounds_mul g Hroster) as Hmul. unfold max_rounds in Hmul.
  set (n := length (players g)) in *. set (r := current_round g + 1) in *.
  set (D := shuffle _create_deck) in *.
  assert (Z.of_nat n * r ≤ 60) as Hnr by nia.
  assert (dealt_cards
            {| players := players g; current_round := r; trump_card := tr;
               current_player := Some cur; scores := scores g; predictions := ∅;
               hands := hs; tricks_won := dict_from_keys (players g) 0;
               current_trick := []; deck := dk |}
          = rev (drop (60 - Z.to_nat (Z.of_nat n * r)) D)) as ->.
  { unfold dealt_cards. simpl.
    rewrite (blocks_concat (rev D) (Z.to_nat r) hs _ 0%nat) by done.
    simpl. rewrite drop_0, firstn_rev. fold n. rewrite Hlen.
    do 2 f_equal. lia. }
  unfold drawn_trump, max_rounds. simpl. fold n.
  rewrite <- (Hsh _create_deck). fold D.
  assert (rev (drop (60 - Z.to_nat (Z.of_nat n * r)) D)
          ++ take (60 - Z.to_nat (Z.of_nat n * r)) D ≡ₚ D) as Hsplit.
  { rewrite <- Permutation_rev, Permutation_app_comm. by rewrite take_drop. }
  case_bool_decide.
  - destruct Htr as (c & -> & Hdk). simpl. by rewrite Hdk.
  - destruct Htr as [_ ->]. by rewrite app_nil_r.
Qed.

(** ** Instances on the sample games *)

Lemma start_round_one :
  start_round keep_order (fresh_game roster) = (Ok tt, game_in_round 1).
Proof. vm_compute. reflexivity. Qed.

Lemma play_first_card :
  play_card "A" (WHITE, JESTER) (game_in_round 1) = (Ok tt, mid_trick_game).
Proof. vm_compute. reflexivity. Qed.

Lemma round_run_play_any g g1 p c :
  round_run g g1 → round_run g (play_card p c g1).2.
Proof.
  intros Hrun. apply (run_play g g1 p c (play_card p c g1).1); [done|].
  by destruct (play_card p c g1).
Qed.

Lemma round_run_round_one : round_run predicted_round_one played_round_one.
Proof.
  apply round_run_play_any, round_run_play_any, round_run_play_any, run_here.
Qed.

Lemma start_round_resets_round_state_witness :
  players (game_in_round 1) = players (fresh_game roster) ∧
  current_round (game_in_round 1) = current_round (fresh_game roster) + 1 ∧
  current_round (game_in_round 1)
    ≤ 60 `div` Z.of_nat (length (players (fresh_game roster))) ∧
  scores (game_in_round 1) = scores (fresh_game roster) ∧
  predictions (game_in_round 1) = ∅ ∧
  current_trick (game_in_round 1) = [] ∧
  (∀ p, tricks_won (game_in_round 1) !! p
        = if bool_decide (p ∈ players (fresh_game roster)) then Some 0 else None).
Proof.
  exact (start_round_resets_round_state keep_order _ _ start_round_one).
Defined.

Lemma start_round_opening_seat_witness :
  current_player (game_in_round 1)
  = players (game_in_round 1)
      !! Z.to_nat ((current_round (game_in_round 1) - 1)
                     `mod` Z.of_nat (length (players (game_in_round 1)))).
Proof. exact (start_round_opening_seat keep_order _ _ start_round_one). Defined.

Lemma prediction_is_kept_witness : predictions played_round_one !! "A" = Some 1.
Proof.
  apply (prediction_is_kept predicted_round_one played_round_one "A" 1).
  - exact round_run_round_one.
  - vm_compute. reflexivity.
Defined.

Lemma play_card_frame_witness :
  players mid_trick_game = players (game_in_round 1) ∧
  current_round mid_trick_game = current_round (game_in_round 1) ∧
  trump_card mid_trick_game = trump_card (game_in_round 1) ∧
  scores mid_trick_game = scores (game_in_round 1) ∧
  predictions mid_trick_game = predictions (game_in_round 1) ∧
  deck mid_trick_game = deck (game_in_round 1) ∧
  ∃ hand, hands (game_in_round 1) !! "A" = Some hand ∧ (WHITE, JESTER) ∈ hand ∧
    hands mid_trick_game
      = <["A" := list_remove (WHITE, JESTER) hand]> (hands (game_in_round 1)) ∧
    if bool_decide (S (length (current_trick (game_in_round 1)))
                    = length (players (game_in_round 1)))
    then current_trick mid_trick_game = [] ∧
         ∃ w won, current_player mid_trick_game = Some w ∧
           w ∈ players (game_in_round 1) ∧
           tricks_won (game_in_round 1) !! w = Some won ∧
           tricks_won mid_trick_game
             = <[w := won + 1]> (tricks_won (game_in_round 1))
    else current_trick mid_trick_game
           = current_trick (game_in_round 1) ++ [(WHITE, JESTER)] ∧
         tricks_won mid_trick_game = tricks_won (game_in_round 1).
Proof. exact (play_card_frame "A" (WHITE, JESTER) _ _ play_first_card). Defined.


Lemma start_round_succeeds_iff_witness :
  ((start_round keep_order (game_in_round 1)).1 = Ok tt
   ↔ current_round (game_in_round 1) < max_rounds (game_in_round 1)) ∧
  (current_round (game_in_round 1) = max_rounds (game_in_round 1) →
   (start_round keep_order (game_in_round 1)).1
     = Raise (AssertionError
                ("Game cannot exceed " +:+ str (max_rounds (game_in_round 1))
                 +:+ " rounds"))).
Proof.
  exact (start_round_succeeds_iff keep_order _ _ reach_round_one
           is_shuffle_keep_order).
Defined.

Lemma play_card_only_fails_on_suit_witness :
  (play_card "A" (WHITE, JESTER) (game_in_round 1)).1 = Ok tt ∨
  (play_card "A" (WHITE, JESTER) (game_in_round 1)).1 = Raise must_follow_suit.
Proof.
  apply (play_card_only_fails_on_suit _ _ "A" (WHITE, JESTER) [(WHITE, JESTER)]
           reach_round_one).
  - vm_compute. reflexivity.
  - vm_compute. reflexivity.
  - apply list_elem_of_here.
Defined.

Lemma round_never_stuck_witness :
  ∃ p c, current_player (game_in_round 1) = Some p ∧
         (play_card p c (game_in_round 1)).1 = Ok tt.
Proof.
  apply (round_never_stuck _ _ reach_round_one). vm_compute. reflexivity.
Defined.




Lemma predictions_in_range_witness :
  "A" ∈ players played_round_one ∧ 0 ≤ 1 ≤ current_round played_round_one.
Proof.
  apply (predictions_in_range _ _ "A" 1 reach_played_round_one).
  vm_compute. reflexivity.
Defined.

Lemma scoring_touches_only_scores_witness :
  (calculate_round_scores played_round_one).2
  = set_scores (scores (calculate_round_scores played_round_one).2) played_round_one.
Proof.
  apply (scoring_touches_only_scores played_round_one _
           (calculate_round_scores played_round_one).1).
  by destruct (calculate_round_scores played_round_one).
Defined.

Lemma scoring_twice_applies_twice_witness :
  ∃ g1 g2,
    calculate_round_scores played_round_one = (Ok tt, g1) ∧
    calculate_round_scores g1 = (Ok tt, g2) ∧
    ∀ p predicted won score,
      p ∈ players played_round_one →
      predictions played_round_one !! p = Some predicted →
      tricks_won played_round_one !! p = Some won →
      scores played_round_one !! p = Some score →
      scores g1 !! p = Some (score + round_delta predicted won) ∧
      scores g2 !! p = Some (score + 2 * round_delta predicted won).
Proof.
  apply (scoring_twice_applies_twice _ _ reach_played_round_one).
  - vm_compute. reflexivity.
  - apply (bool_decide_unpack _). vm_compute. exact I.
Defined.

Lemma first_wizard_decides_witness :
  _determine_trick_winner wizard_trick_game
  = nth_player (players wizard_trick_game) (length [(WHITE, JESTER)]).
Proof.
  apply (first_wizard_decides wizard_trick_game [(WHITE, JESTER)]
           [(WHITE, WIZARD); (BLUE, Rank 4)]).
  - reflexivity.
  - apply Forall_cons. split; [reflexivity|apply Forall_nil_2].
Defined.

Lemma all_jesters_first_seat_witness :
  _determine_trick_winner jester_trick_game
  = nth_player (players jester_trick_game) 0.
Proof.
  apply (all_jesters_first_seat jester_trick_game).
  - discriminate.
  - repeat (apply Forall_cons; split; [reflexivity|]). apply Forall_nil_2.
Defined.

Lemma no_trump_card_type_error_witness :
  _determine_trick_winner no_trump_game = Raise TypeError.
Proof.
  apply (no_trump_card_type_error no_trump_game).
  - reflexivity.
  - reflexivity.
  - vm_compute. lia.
Defined.

Lemma ordinary_trick_winner_witness :
  ∃ i c, current_trick red_trump_game !! i = Some c ∧ is_jester c = false ∧
    _determine_trick_winner red_trump_game
      = nth_player (players red_trump_game) i ∧
    c.1 = (if suit_played (RED, Rank 5) (compared_cards (current_trick red_trump_game))
           then (RED, Rank 5).1 else (BLUE, Rank 10).1) ∧
    ∀ j c', (j, c') ∈ compared_cards (current_trick red_trump_game) →
      c'.1 = c.1 → rank_of c' ≤ rank_of c.
Proof.
  apply (ordinary_trick_winner red_trump_game (RED, Rank 5) 0 (BLUE, Rank 10)
           [(1%nat, (RED, Rank 2)); (2%nat, (BLUE, Rank 13))]).
  - reflexivity.
  - reflexivity.
  - apply (bool_decide_unpack _). vm_compute. exact I.
  - reflexivity.
Defined.

Lemma _deal_cards_conserves_witness :
  ∃ g', _deal_cards keep_order deal_game = (Ok tt, g') ∧
    dealt_cards g' ++ rev (deck g') = rev (keep_order (deck deal_game)) ∧
    dealt_cards g' ++ deck g' ≡ₚ deck deal_game.
Proof.
  apply (_deal_cards_conserves keep_order deal_game is_shuffle_keep_order).
  - apply (bool_decide_unpack _). vm_compute. exact I.
  - vm_compute. lia.
Defined.

Lemma _deal_cards_short_deck_witness :
  ∃ g', _deal_cards keep_order short_deck_game = (Raise IndexError, g').
Proof.
  apply (_deal_cards_short_deck keep_order short_deck_game). vm_compute. lia.
Defined.

Lemma start_round_deals_the_whole_deck_witness :
  dealt_cards (game_in_round 1) ++ deck (game_in_round 1)
  ++ drawn_trump (game_in_round 1) ≡ₚ _create_deck.
Proof.
  exact (start_round_deals_the_whole_deck keep_order _ _ _ reach_fresh_roster
           is_shuffle_keep_order start_round_one).
Defined.
